(** * PBD::RaRingBuffer — a two-segment, position-addressed ring buffer

    Shallow embedding of [libs/pbd/pbd/raringbuffer.h] and the properties
    of its write / read / reset protocol.

    Conventions of the embedding

    - [guint] values are integers in [0, 2^32); every [guint] operation of
      the source is followed by [to_guint], its wrap-around.  A conversion
      to [int] is [to_int].
    - [int64_t] positions and offsets are unbounded integers: signed
      overflow is undefined in C++, so the model covers the runs on which
      it does not occur.
    - [write_idx] and [read_idx] are [gint] cells that the source only
      reads into and stores from [guint] variables; the model keeps the
      [guint] value.
    - [assert (c)] aborts the program unless the build defines [NDEBUG]:
      functions that contain an assertion take the flag [NDEBUG] and
      return [None] for an abort.
    - The spin lock and the atomics serialise the accesses of the two
      threads; the model is the sequential semantics of each call.  The
      try-lock of [read] is the argument [lm_locked].
    - A pointer to elements ([src], [dest], [buf]) is the list of the
      elements it points to, and [memcpy] replaces a span of that list;
      the calls considered pass at least [cnt] elements.
    - [printf] diagnostics, and [dump_segments], which only prints, are
      not modelled. *)

From Stdlib Require Import ZArith Lia Bool List.
From stdpp Require Import base option list.

#[local] Open Scope Z_scope.

(** ** Machine integers *)

Definition to_guint (x : Z) : Z := x mod 2 ^ 32.

Definition to_int (x : Z) : Z := (x + 2 ^ 31) mod 2 ^ 32 - 2 ^ 31.

(** [assert (c)]: continues when the condition holds or assertions are
    compiled out, aborts otherwise. *)
Definition assert (NDEBUG : bool) (c : bool) : option unit :=
  if NDEBUG || c then Some tt else None.

(** ** Data model *)

Record Segment : Type := mkSegment {
  index : Z;               (* guint: index in ringbuffer of initial start_pos *)
  write_start_pos : Z;     (* int64_t: start of write *)
  write_start_offset : Z;  (* int64_t: data written since _pos; 0: inactive *)
  write_reversed : bool
}.

Definition set_index (s : Segment) (i : Z) : Segment :=
  mkSegment i (write_start_pos s) (write_start_offset s) (write_reversed s).

Definition set_write_start_pos (s : Segment) (p : Z) : Segment :=
  mkSegment (index s) p (write_start_offset s) (write_reversed s).

Definition set_write_start_offset (s : Segment) (o : Z) : Segment :=
  mkSegment (index s) (write_start_pos s) o (write_reversed s).

(** The array [Segment s[2]]: a pair, read and updated by an index that is
    0 or 1. *)
Definition seg_get (s : Segment * Segment) (i : Z) : Segment :=
  if i =? 0 then fst s else snd s.

Definition seg_set (s : Segment * Segment) (i : Z) (x : Segment)
  : Segment * Segment :=
  if i =? 0 then (x, snd s) else (fst s, x).

Section RaRingBuffer.

Context {T : Type}.

Record RaRingBuffer : Type := mkRaRingBuffer {
  buf : list T;
  reservation : Z;   (* guint *)
  size : Z;          (* guint *)
  size_mask : Z;     (* guint *)
  _seg : Segment * Segment;
  write_idx : Z;
  read_idx : Z
}.

Definition set_buf (b : RaRingBuffer) (m : list T) : RaRingBuffer :=
  mkRaRingBuffer m (reservation b) (size b) (size_mask b) (_seg b)
    (write_idx b) (read_idx b).

Definition set_seg (b : RaRingBuffer) (s : Segment * Segment) : RaRingBuffer :=
  mkRaRingBuffer (buf b) (reservation b) (size b) (size_mask b) s
    (write_idx b) (read_idx b).

Definition set_write_idx (b : RaRingBuffer) (w : Z) : RaRingBuffer :=
  mkRaRingBuffer (buf b) (reservation b) (size b) (size_mask b) (_seg b)
    w (read_idx b).

Definition set_read_idx (b : RaRingBuffer) (r : Z) : RaRingBuffer :=
  mkRaRingBuffer (buf b) (reservation b) (size b) (size_mask b) (_seg b)
    (write_idx b) r.

(** [memcpy (&dst[d], &src[s], n * sizeof (T))] *)
Definition memcpy (dst : list T) (d : Z) (src : list T) (s : Z) (n : Z)
  : list T :=
  list_inserts (Z.to_nat d) (take (Z.to_nat n) (drop (Z.to_nat s) src)) dst.

(** ** Operations *)

(** [void reset (int64_t start)] *)
Definition reset (b : RaRingBuffer) (start : Z) : RaRingBuffer :=
  let s0 := set_write_start_pos (fst (_seg b)) start in
  let s0 := set_write_start_offset s0 0 in
  let s1 := set_write_start_offset (snd (_seg b)) 0 in
  set_write_idx (set_seg b (s0, s1)) (read_idx b).

(** The loop [for (power_of_two = 1; 1U << power_of_two < sz; ++power_of_two);]
    The shift count stays below 32 for [fuel] iterations; a further
    iteration would shift by 32, which is undefined. *)
Fixpoint power_of_two_loop (fuel : nat) (power_of_two sz : Z) : option Z :=
  match fuel with
  | O => None
  | S fuel' =>
      if to_guint (Z.shiftl 1 power_of_two) <? sz
      then power_of_two_loop fuel' (power_of_two + 1) sz
      else Some power_of_two
  end.

(** [RaRingBuffer (guint sz, guint res)].  [new T[size]] and the fields
    that the constructor does not assign hold arbitrary values: [mem]
    gives the initial content of the storage and [junk] the initial
    segment descriptors. *)
Definition new_RaRingBuffer (sz res : Z) (mem : nat → T)
    (junk : Segment * Segment) : option RaRingBuffer :=
  let sz := to_guint (sz + res) in
  power_of_two ← power_of_two_loop 31 1 sz;
  let size := to_guint (Z.shiftl 1 power_of_two) in
  let size_mask := to_guint (size - 1) in
  let buf := map mem (seq 0 (Z.to_nat size)) in
  Some (reset (mkRaRingBuffer buf res size size_mask junk 0 0) 0).

(** [int segment_to_use (Segment const& s0, Segment const& s1, guint w)] *)
Definition segment_to_use (NDEBUG : bool) (b : RaRingBuffer)
    (s0 s1 : Segment) (w : Z) : option Z :=
  let d0 := to_int (to_guint (to_guint (w - index s0)
                              + (if w >? index s0 then 0 else size b))) in
  let d1 := to_int (to_guint (to_guint (w - index s1)
                              + (if w >? index s1 then 0 else size b))) in
  _ ← assert NDEBUG (negb (d0 =? d1));
  if d0 <? d1 then Some 0 else Some 1.

(** [int64_t next_write_pos ()] *)
Definition next_write_pos (NDEBUG : bool) (b : RaRingBuffer) : option Z :=
  let s := _seg b in
  let w := write_idx b in
  if (write_start_offset (seg_get s 0) =? 0)
     && (write_start_offset (seg_get s 1) =? 0) then
    Some (write_start_pos (seg_get s 0))
  else if negb (write_start_offset (seg_get s 0) =? 0) then
    Some (write_start_pos (seg_get s 0) + write_start_offset (seg_get s 0))
  else if negb (write_start_offset (seg_get s 1) =? 0) then
    Some (write_start_pos (seg_get s 1) + write_start_offset (seg_get s 1))
  else
    segment ← segment_to_use NDEBUG b (seg_get s 0) (seg_get s 1) w;
    Some (write_start_pos (seg_get s segment)
          + write_start_offset (seg_get s segment)).

(** The range test that [can_read] and [read] apply to each segment:
    [write_start_offset > 0], [start >= frs] and [start + cnt <= lrs]. *)
Definition covers (b : RaRingBuffer) (s : Segment) (start cnt : Z) : bool :=
  if 0 <? write_start_offset s then
    let lrs := write_start_pos s + write_start_offset s in
    let frs := lrs - Z.min (write_start_offset s) (to_guint (size b - 1)) in
    (frs <=? start) && (start + cnt <=? lrs)
  else false.

(** [bool can_read (int64_t start, int32_t cnt)]: the count is an
    [int32_t], so the argument is converted on entry. *)
Definition can_read (b : RaRingBuffer) (start cnt : Z) : bool :=
  let cnt := to_int cnt in
  let s := _seg b in
  if covers b (seg_get s 0) start cnt then true
  else if covers b (seg_get s 1) start cnt then true
  else false.

(** [guint write_space ()] *)
Definition write_space (b : RaRingBuffer) : Z :=
  let w := write_idx b in
  let r := read_idx b in
  let rv :=
    if w >? r then Z.land (to_guint (to_guint (r - w) + size b)) (size_mask b)
    else if w <? r then to_guint (r - w)
    else size b in
  if rv >? reservation b then to_guint (to_guint (rv - 1) - reservation b)
  else 0.

(** [guint read_space ()] *)
Definition read_space (b : RaRingBuffer) : Z :=
  let w := write_idx b in
  let r := read_idx b in
  if w >? r then to_guint (w - r)
  else Z.land (to_guint (to_guint (w - r) + size b)) (size_mask b).

(** [void increment_read_idx (guint cnt)] *)
Definition increment_read_idx (b : RaRingBuffer) (cnt : Z) : RaRingBuffer :=
  let cnt := Z.min cnt (read_space b) in
  set_read_idx b (Z.land (to_guint (read_idx b + cnt)) (size_mask b)).

(** [void read_flush ()] *)
Definition read_flush (b : RaRingBuffer) : RaRingBuffer :=
  set_read_idx b (write_idx b).

(** The first part of [write]: the choice of the segment to append to.
    [Refused] is the [return 0] of the last branch. *)
Inductive choice : Type :=
  | Refused
  | Chosen (segment : Z) (s : Segment * Segment).

Definition choose_segment (NDEBUG : bool) (b : RaRingBuffer) (start : Z)
  : option choice :=
  let s := _seg b in
  let priv_write_idx := write_idx b in
  if (write_start_offset (seg_get s 0) =? 0)
     && (write_start_offset (seg_get s 1) =? 0) then
    let s0 := set_index (seg_get s 0) priv_write_idx in
    let s0 := set_write_start_pos s0 start in
    Some (Chosen 0 (seg_set s 0 s0))
  else if negb (write_start_offset (seg_get s 0) =? 0) then
    Some (Chosen 0 s)
  else if negb (write_start_offset (seg_get s 1) =? 0) then
    Some (Chosen 1 s)
  else
    segment ← segment_to_use NDEBUG b (seg_get s 0) (seg_get s 1)
                priv_write_idx;
    let next_write := write_start_pos (seg_get s segment)
                      + write_start_offset (seg_get s segment) in
    if negb (start =? next_write) then Some Refused
    else Some (Chosen segment s).

(** The second part of [write]: a start that does not continue the chosen
    segment opens the other one. *)
Definition start_new_segment (NDEBUG : bool) (b : RaRingBuffer) (start : Z)
    (segment : Z) (s : Segment * Segment)
  : option (Z * (Segment * Segment)) :=
  let priv_write_idx := write_idx b in
  let next_write := write_start_pos (seg_get s segment)
                    + write_start_offset (seg_get s segment) in
  if negb (start =? next_write) then
    let segment := 1 - segment in
    let x := set_index (seg_get s segment) priv_write_idx in
    let x := set_write_start_pos x start in
    _ ← assert NDEBUG (write_start_offset x =? 0);
    Some (segment, seg_set s segment (set_write_start_offset x 0))
  else Some (segment, s).

(** The copy of [write]: [to_write] elements of [src] go to the slots
    from [priv_write_idx] on, in two spans when they pass the end of the
    storage.  The result is the storage and the write index afterwards. *)
Definition copy_in (b : RaRingBuffer) (src : list T) (to_write : Z)
  : list T * Z :=
  let priv_write_idx := write_idx b in
  let cnt2 := to_guint (priv_write_idx + to_write) in
  let '(n1, n2) :=
    if cnt2 >? size b
    then (to_guint (size b - priv_write_idx), Z.land cnt2 (size_mask b))
    else (to_write, 0) in
  let buf1 := memcpy (buf b) priv_write_idx src 0 n1 in
  let priv_write_idx :=
    Z.land (to_guint (priv_write_idx + n1)) (size_mask b) in
  if negb (n2 =? 0) then (memcpy buf1 0 src n1 n2, n2)
  else (buf1, priv_write_idx).

(** [guint write (T const* src, int64_t start, guint cnt)]: the new state
    and the returned count. *)
Definition write (NDEBUG : bool) (b : RaRingBuffer) (src : list T)
    (start cnt : Z) : option (RaRingBuffer * Z) :=
  c ← choose_segment NDEBUG b start;
  match c with
  | Refused => Some (b, 0)
  | Chosen segment s =>
      '(segment, s) ← start_new_segment NDEBUG b start segment s;
      let free_cnt := write_space b in
      if free_cnt =? 0 then Some (b, 0)
      else
        let to_write := if cnt >? free_cnt then free_cnt else cnt in
        let '(buf2, priv_write_idx) := copy_in b src to_write in
        let x := seg_get s segment in
        let x := set_write_start_offset x (write_start_offset x + to_write) in
        let b := set_buf b buf2 in
        let b := set_seg b (seg_set (_seg b) segment x) in
        let b := set_write_idx b priv_write_idx in
        Some (b, to_write)
  end.

(** The physical slot that [read] computes for a segment that passed the
    range test. *)
Definition read_slot (b : RaRingBuffer) (s : Segment) (start : Z) : Z :=
  let lrs := write_start_pos s + write_start_offset s in
  let p := to_int (Z.land (index s + write_start_offset s) (size_mask b)) in
  if p >? lrs - start then to_guint (p - (lrs - start))
  else to_guint (Z.land (to_guint (size b + p) - (lrs - start)) (size_mask b)).

(** The "quick hack" of a committing [read]: the segment [i] that was read
    from and that the writer is not using is cut down to what follows the
    range just read. *)
Definition shrink_segment (NDEBUG : bool) (b : RaRingBuffer) (i : Z)
    (start cnt priv_read_idx : Z) : option RaRingBuffer :=
  let x := seg_get (_seg b) i in
  let end_ := start + cnt in
  let delta := end_ - write_start_pos x in
  _ ← assert NDEBUG (0 <=? delta);
  _ ← assert NDEBUG (delta <=? write_start_offset x);
  let x := set_write_start_pos x end_ in
  let x := set_write_start_offset x (write_start_offset x - delta) in
  let x := set_index x priv_read_idx in
  Some (set_seg b (seg_set (_seg b) i x)).

(** The copy of [read]: [cnt] elements from the slot [priv_read_idx] on go
    to [dest], in two spans when they pass the end of the storage.  The
    result is [dest] and the read index afterwards. *)
Definition copy_out (b : RaRingBuffer) (dest : list T)
    (priv_read_idx cnt : Z) : list T * Z :=
  let cnt2 := to_guint (priv_read_idx + cnt) in
  let '(n1, n2) :=
    if cnt2 >? size b
    then (to_guint (size b - priv_read_idx), Z.land cnt2 (size_mask b))
    else (cnt, 0) in
  let dest1 := memcpy dest 0 (buf b) priv_read_idx n1 in
  let priv_read_idx :=
    Z.land (to_guint (priv_read_idx + n1)) (size_mask b) in
  if negb (n2 =? 0) then (memcpy dest1 n1 (buf b) 0 n2, n2)
  else (dest1, priv_read_idx).

(** The search of [read] for the segment that holds the range: bit 0 of
    [segment] is set when segment 0 passes the range test, bit 1 when
    segment 1 does.  [priv_read_idx] is not initialised in the source; it
    is read only after one of the two blocks has assigned it. *)
Definition find_segment (b : RaRingBuffer) (start cnt : Z) : Z * Z :=
  let s := _seg b in
  let segment := 0 in
  let priv_read_idx := 0 in
  let '(segment, priv_read_idx) :=
    if covers b (seg_get s 0) start cnt
    then (Z.lor segment 1, read_slot b (seg_get s 0) start)
    else (segment, priv_read_idx) in
  if covers b (seg_get s 1) start cnt
  then (Z.lor segment 2, read_slot b (seg_get s 1) start)
  else (segment, priv_read_idx).

(** The commit of [read] before the read index is stored. *)
Definition invalidate (NDEBUG : bool) (b : RaRingBuffer)
    (segment start cnt priv_read_idx : Z) : option RaRingBuffer :=
  let s := _seg b in
  let w := write_idx b in
  if negb (write_start_offset (seg_get s 0) =? 0)
     && negb (write_start_offset (seg_get s 1) =? 0) then
    u ← segment_to_use NDEBUG b (seg_get s 0) (seg_get s 1) w;
    let wseg := 1 - u in
    b ← (if (segment =? 2) && (wseg =? 1)
         then shrink_segment NDEBUG b 1 start cnt priv_read_idx
         else Some b);
    if (segment =? 1) && (wseg =? 0)
    then shrink_segment NDEBUG b 0 start cnt priv_read_idx
    else Some b
  else Some b.

(** [guint read (T* dest, int64_t start, guint cnt, bool commit)]: the new
    state, the returned count and the content of [dest] afterwards.
    [lm_locked] is the outcome of the try-lock on the reset mutex. *)
Definition read (NDEBUG : bool) (lm_locked : bool) (b : RaRingBuffer)
    (dest : list T) (start cnt : Z) (commit : bool)
  : option (RaRingBuffer * Z * list T) :=
  if negb lm_locked then Some (b, 0, dest)
  else
    let w := write_idx b in
    let '(segment, priv_read_idx) := find_segment b start cnt in
    if negb (segment =? 1) && negb (segment =? 2) then
      Some (if commit then set_read_idx b w else b, 0, dest)
    else
      let '(dest2, priv_read_idx) := copy_out b dest priv_read_idx cnt in
      if commit then
        b ← invalidate NDEBUG b segment start cnt priv_read_idx;
        Some (set_read_idx b priv_read_idx, cnt, dest2)
      else Some (b, cnt, dest2).

(** ** Runs of the interface *)

Inductive call : Type :=
  | CallReset (start : Z)
  | CallWrite (src : list T) (start cnt : Z)
  | CallRead (lm_locked : bool) (dest : list T) (start cnt : Z) (commit : bool)
  | CallIncrementReadIdx (cnt : Z)
  | CallReadFlush.

Definition is_guint (x : Z) : Prop := 0 ≤ x < 2 ^ 32.

(** The arguments of a call have the types of the source: counts are
    [guint] and [src] points to at least [cnt] elements. *)
Definition well_typed (c : call) : Prop :=
  match c with
  | CallReset _ => True
  | CallWrite src _ cnt => is_guint cnt ∧ cnt ≤ Z.of_nat (length src)
  | CallRead _ dest _ cnt _ => is_guint cnt ∧ cnt ≤ Z.of_nat (length dest)
  | CallIncrementReadIdx cnt => is_guint cnt
  | CallReadFlush => True
  end.

Definition step (NDEBUG : bool) (b : RaRingBuffer) (c : call)
  : option RaRingBuffer :=
  match c with
  | CallReset start => Some (reset b start)
  | CallWrite src start cnt => fst <$> write NDEBUG b src start cnt
  | CallRead lm dest start cnt commit =>
      (λ r, fst (fst r)) <$> read NDEBUG lm b dest start cnt commit
  | CallIncrementReadIdx cnt => Some (increment_read_idx b cnt)
  | CallReadFlush => Some (read_flush b)
  end.

Fixpoint run (NDEBUG : bool) (b : RaRingBuffer) (cs : list call)
  : option RaRingBuffer :=
  match cs with
  | [] => Some b
  | c :: cs => b' ← step NDEBUG b c; run NDEBUG b' cs
  end.

(** A state is reachable when a run of well-typed calls leads to it from
    a newly constructed buffer. *)
Definition reachable (NDEBUG : bool) (b : RaRingBuffer) : Prop :=
  ∃ sz res mem junk b0 cs,
    is_guint sz ∧ is_guint res ∧
    new_RaRingBuffer sz res mem junk = Some b0 ∧
    Forall well_typed cs ∧
    run NDEBUG b0 cs = Some b.

(** ** Notions of the specification *)

(** The state is well formed: [size] is a power of two between 2 and 2^31
    (what the constructor produces), [size_mask] is [size - 1], both
    indices are slots of the storage, and the storage has [size]
    elements. *)
Record wf (b : RaRingBuffer) : Prop := mk_wf {
  wf_pow2 : size b = 2 ^ Z.log2 (size b);
  wf_size : 2 ≤ size b ≤ 2 ^ 31;
  wf_mask : size_mask b = size b - 1;
  wf_write_idx : 0 ≤ write_idx b < size b;
  wf_read_idx : 0 ≤ read_idx b < size b;
  wf_reservation : is_guint (reservation b);
  wf_buf : length (buf b) = Z.to_nat (size b)
}.

(** Forward distance on the ring from slot [from] to slot [to]. *)
Definition ring_distance (b : RaRingBuffer) (from to : Z) : Z :=
  (to - from) mod size b.

(** The reservation bound: the write index is at most
    [size - 1 - reservation] slots ahead of the read index. *)
Definition within_reservation (b : RaRingBuffer) : Prop :=
  ring_distance b (read_idx b) (write_idx b) ≤ size b - 1 - reservation b.

(** The distance that [write_space] starts from: the forward distance from
    the write index to the read index, a full lap when they coincide. *)
Definition free_distance (b : RaRingBuffer) : Z :=
  if write_idx b =? read_idx b then size b
  else ring_distance b (write_idx b) (read_idx b).

(** The distance that [segment_to_use] compares: the forward distance from
    a segment's slot to the write index, a full lap when they coincide. *)
Definition lap_distance (b : RaRingBuffer) (idx w : Z) : Z :=
  if w =? idx then size b else ring_distance b idx w.

Definition active (s : Segment) : Prop := 0 < write_start_offset s.

Definition last_range_end (s : Segment) : Z :=
  write_start_pos s + write_start_offset s.

Definition first_range_start (b : RaRingBuffer) (s : Segment) : Z :=
  last_range_end s - Z.min (write_start_offset s) (size b - 1).

(** The range [start, start + cnt) lies in the valid range of the active
    segment [s]. *)
Definition holds (b : RaRingBuffer) (s : Segment) (start cnt : Z) : Prop :=
  active s ∧ first_range_start b s ≤ start ∧ start + cnt ≤ last_range_end s.

(** The half-open ranges [a, b) and [c, d) have no position in common. *)
Definition disjoint_ranges (a b c d : Z) : Prop :=
  ∀ x, a ≤ x < b → c ≤ x < d → False.

(** Segment exclusivity: when both segments are active their valid ranges
    are disjoint. *)
Definition exclusive (b : RaRingBuffer) : Prop :=
  active (fst (_seg b)) → active (snd (_seg b)) →
  disjoint_ranges
    (first_range_start b (fst (_seg b))) (last_range_end (fst (_seg b)))
    (first_range_start b (snd (_seg b))) (last_range_end (snd (_seg b))).

(** The positions [start, start + cnt) are in the valid range of no active
    segment. *)
Definition uncached (b : RaRingBuffer) (start cnt : Z) : Prop :=
  ∀ s, s = fst (_seg b) ∨ s = snd (_seg b) → active s →
    disjoint_ranges start (start + cnt)
      (first_range_start b s) (last_range_end s).

Definition is_write (c : call) : Prop :=
  match c with CallWrite _ _ _ => True | _ => False end.

(** A run of write calls none of which writes positions that a segment
    already holds. *)
Fixpoint writes_uncached (NDEBUG : bool) (b : RaRingBuffer) (cs : list call)
  : Prop :=
  match cs with
  | [] => True
  | c :: cs =>
      match c with
      | CallWrite _ start cnt => uncached b start cnt
      | _ => False
      end ∧
      match step NDEBUG b c with
      | Some b' => writes_uncached NDEBUG b' cs
      | None => True
      end
  end.

(** The slot of the storage in which segment [s] keeps position [p]. *)
Definition slot_of (b : RaRingBuffer) (s : Segment) (p : Z) : Z :=
  (index s + (p - write_start_pos s)) mod size b.

(** Segment [s] keeps, at every position of its valid range, the element
    that the stream [f] has at that position. *)
Definition stored (b : RaRingBuffer) (s : Segment) (f : Z → T) : Prop :=
  ∀ p, first_range_start b s ≤ p < last_range_end s →
       buf b !! Z.to_nat (slot_of b s p) = Some (f p).

(** The descriptors of the segments make sense: no offset is negative, and
    a segment in use starts at a slot of the storage. *)
Definition segments_ok (b : RaRingBuffer) : Prop :=
  ∀ s, s = fst (_seg b) ∨ s = snd (_seg b) →
    0 ≤ write_start_offset s ∧
    (write_start_offset s ≠ 0 → 0 ≤ index s < size b).

(** The state of a linear playback of the stream [f]: segment 1 is
    unused, and segment 0, when in use, ends at the write index and keeps
    the elements of [f]. *)
Definition playing (b : RaRingBuffer) (f : Z → T) : Prop :=
  wf b ∧
  write_start_offset (snd (_seg b)) = 0 ∧
  0 ≤ write_start_offset (fst (_seg b)) ∧
  (write_start_offset (fst (_seg b)) ≠ 0 →
   slot_of b (fst (_seg b)) (last_range_end (fst (_seg b))) = write_idx b) ∧
  stored b (fst (_seg b)) f.

(** Linear playback of the stream [f]: no call resets the buffer, and
    every write call is made at the position that [next_write_pos]
    announces, with the elements that [f] has from that position on. *)
Fixpoint linear (NDEBUG : bool) (f : Z → T) (b : RaRingBuffer)
    (cs : list call) : Prop :=
  match cs with
  | [] => True
  | c :: cs =>
      match c with
      | CallReset _ => False
      | CallWrite src start cnt =>
          next_write_pos NDEBUG b = Some start ∧
          ∀ j, 0 ≤ j < cnt → src !! Z.to_nat j = Some (f (start + j))
      | _ => True
      end ∧
      match step NDEBUG b c with
      | Some b' => linear NDEBUG f b' cs
      | None => True
      end
  end.

End RaRingBuffer.

Arguments RaRingBuffer : clear implicits.
Arguments call : clear implicits.

(** ** Example states (elements are integers) *)

Module Example.

Definition junk : Segment * Segment :=
  (mkSegment 77 88 99 false, mkSegment 55 66 44 true).

(** [n] consecutive integers from [a] on. *)
Definition iota (a n : Z) : list Z :=
  map (λ i, a + Z.of_nat i) (seq 0 (Z.to_nat n)).

(** The state that [o] holds; a buffer without storage when the run that
    produced [o] aborted. *)
Definition the (o : option (RaRingBuffer Z)) : RaRingBuffer Z :=
  default (mkRaRingBuffer [] 0 0 0 junk 0 0) o.

(** [RaRingBuffer<int> (10, 2)]: 16 slots. *)
Definition fresh : RaRingBuffer Z :=
  the (new_RaRingBuffer 10 2 (λ _, -1) junk).

(** Positions 0..3 in segment 0, then 2000..2003 in segment 1. *)
Definition looped : RaRingBuffer Z :=
  the (run false fresh [CallWrite (iota 0 4) 0 4;
                        CallWrite (iota 2000 4) 2000 4]).

(** Positions 0..9 in segment 0, then 5..7 once more in segment 1. *)
Definition doubled : RaRingBuffer Z :=
  the (run false fresh [CallWrite (iota 0 10) 0 10;
                        CallWrite (iota 5 3) 5 3]).

(** The reader follows the writer for a lap and then steps back by one
    position. *)
Definition rewind_calls : list (call Z) :=
  [CallWrite (iota 0 13) 0 13; CallRead true [0] 12 1 true;
   CallWrite (iota 13 13) 13 13; CallRead true [0] 11 1 true].

Definition rewound : RaRingBuffer Z := the (run false fresh rewind_calls).

(** Positions 0..3 written, and then as many of 4..23 as there is space
    for. *)
Definition four : RaRingBuffer Z :=
  the (run false fresh [CallWrite (iota 0 4) 0 4]).

Definition filled : RaRingBuffer Z :=
  the (run false four [CallWrite (iota 4 20) 4 20]).

(** [looped] after a write at 5000 in a build without assertions. *)
Definition clobbered : RaRingBuffer Z :=
  the (run true looped [CallWrite (iota 5000 3) 5000 3]).

(** The writer fills a whole lap of the ring with segment 0 and then
    jumps: segment 1 starts at the slot at which segment 0 started. *)
Definition tied : RaRingBuffer Z :=
  the (run false fresh [CallWrite (iota 0 13) 0 13; CallRead true [0] 12 1 true;
                        CallWrite (iota 13 3) 13 3;
                        CallWrite (iota 2000 2) 2000 2]).

(** [RaRingBuffer<int> (4294959106, 8191)]: the sum of the two arguments
    wraps to 1, and the storage has 2 slots. *)
Definition wrapped : RaRingBuffer Z :=
  the (new_RaRingBuffer 4294959106 8191 (λ _, -1) junk).

(** A playback of the stream that has the element [p] at position [p],
    from position 100 on: the writer appends, the reader reads, commits
    and goes back. *)
Definition playback : list (call Z) :=
  [CallWrite (iota 100 5) 100 5; CallRead true [0; 0; 0] 100 3 true;
   CallWrite (iota 105 20) 105 20; CallRead true [0; 0] 108 2 true;
   CallIncrementReadIdx 3; CallWrite (iota 116 6) 116 6].

Definition played : RaRingBuffer Z :=
  the (run false (reset fresh 100) playback).

End Example.

(** * Properties *)

(** ** Machine arithmetic *)

Lemma to_guint_small x : 0 ≤ x < 2 ^ 32 → to_guint x = x.
Proof. intros. unfold to_guint. by apply Z.mod_small. Qed.

Lemma to_guint_range x : 0 ≤ to_guint x < 2 ^ 32.
Proof. unfold to_guint. apply Z.mod_pos_bound. lia. Qed.

Lemma to_guint_plus_l a c : to_guint (to_guint a + c) = to_guint (a + c).
Proof. unfold to_guint. apply Zplus_mod_idemp_l. Qed.

Lemma to_guint_minus_l a c : to_guint (to_guint a - c) = to_guint (a - c).
Proof. unfold to_guint. apply Zminus_mod_idemp_l. Qed.

Lemma to_int_small x : - 2 ^ 31 ≤ x < 2 ^ 31 → to_int x = x.
Proof. intros. unfold to_int. rewrite Z.mod_small; lia. Qed.

Lemma mod_lap m x : m ≤ x < 2 * m → x mod m = x - m.
Proof.
  intros. symmetry. apply (Z.mod_unique x m 1); lia.
Qed.

Lemma mod_lap_back m x : - m ≤ x < 0 → x mod m = x + m.
Proof.
  intros. symmetry. apply (Z.mod_unique x m (-1)); lia.
Qed.

Lemma land_mask k x : 0 ≤ k → Z.land x (2 ^ k - 1) = x mod 2 ^ k.
Proof.
  intros. rewrite <- Z.land_ones by done. f_equal.
  rewrite Z.ones_equiv. lia.
Qed.

Section Properties.

Context {T : Type}.

Implicit Types (b : RaRingBuffer T) (s : Segment) (src dest : list T).

(** A run of binds that returned: each step returned. *)
Ltac unbind :=
  repeat match goal with
    | |- (?m ≫= _) = Some _ → _ =>
        let E := fresh "E" in destruct m eqn:E; simpl; [|done]
    end.

(** ** Well-formed states *)

Lemma wf_land b x : wf b → Z.land x (size_mask b) = x mod size b.
Proof.
  intros [Hp Hs Hm _ _ _ _]. rewrite Hm.
  pose proof (land_mask (Z.log2 (size b)) x) as H.
  rewrite <- Hp in H. apply H. apply Z.log2_nonneg.
Qed.

Lemma wf_land_range b x : wf b → 0 ≤ Z.land x (size_mask b) < size b.
Proof.
  intros Hwf. rewrite wf_land by done. apply Z.mod_pos_bound.
  destruct Hwf. lia.
Qed.

Lemma wf_size_guint b : wf b → to_guint (size b - 1) = size b - 1.
Proof. intros [_ Hs _ _ _ _ _]. apply to_guint_small. lia. Qed.

Lemma length_memcpy (dst : list T) d (src : list T) o n :
  length (memcpy dst d src o n) = length dst.
Proof. unfold memcpy. apply length_inserts. Qed.

Lemma copy_in_length b src n : length (copy_in b src n).1 = length (buf b).
Proof.
  unfold copy_in.
  destruct (_ >? _); simpl; [destruct (negb _); simpl|];
    by rewrite ?length_memcpy.
Qed.

Lemma copy_in_idx b src n : wf b → 0 ≤ (copy_in b src n).2 < size b.
Proof.
  intros Hwf. unfold copy_in.
  destruct (_ >? _); simpl; [destruct (negb _); simpl|];
    by apply wf_land_range.
Qed.

Lemma copy_out_idx b dest i n : wf b → 0 ≤ (copy_out b dest i n).2 < size b.
Proof.
  intros Hwf. unfold copy_out.
  destruct (_ >? _); simpl; [destruct (negb _); simpl|];
    by apply wf_land_range.
Qed.

(** The fields that [wf] speaks about, for the state updates. *)
Lemma wf_set_seg b x : wf b → wf (set_seg b x).
Proof. intros []. by constructor. Qed.

Lemma wf_set_read_idx b r : wf b → 0 ≤ r < size b → wf (set_read_idx b r).
Proof. intros [] ?. by constructor. Qed.

Lemma wf_set_write_idx b w : wf b → 0 ≤ w < size b → wf (set_write_idx b w).
Proof. intros [] ?. by constructor. Qed.

Lemma wf_set_buf b m : wf b → length m = length (buf b) → wf (set_buf b m).
Proof. intros [] Hm. constructor; try done. simpl. by rewrite Hm. Qed.

Lemma wf_reset b start : wf b → wf (reset b start).
Proof.
  intros Hwf. unfold reset. apply wf_set_write_idx.
  - by apply wf_set_seg.
  - destruct Hwf. done.
Qed.

Lemma wf_read_flush b : wf b → wf (read_flush b).
Proof. intros Hwf. apply wf_set_read_idx; [done | by destruct Hwf]. Qed.

Lemma wf_increment_read_idx b cnt : wf b → wf (increment_read_idx b cnt).
Proof.
  intros Hwf. apply wf_set_read_idx; [done | by apply wf_land_range].
Qed.

Lemma wf_write NDEBUG b src start cnt b' n :
  wf b → write NDEBUG b src start cnt = Some (b', n) → wf b'.
Proof.
  intros Hwf. unfold write.
  destruct (choose_segment _ _ _) as [[|i s]|]; simpl; [congruence| |done].
  destruct (start_new_segment _ _ _ _ _) as [[i' s']|]; simpl; [|done].
  destruct (write_space b =? 0); [congruence|].
  destruct (copy_in _ _ _) as [m w] eqn:Hc.
  intros [= <- _].
  apply wf_set_write_idx; [apply wf_set_seg, wf_set_buf; [done|] |].
  - change m with (m, w).1. rewrite <- Hc. apply copy_in_length.
  - simpl. change w with (m, w).2. rewrite <- Hc. by apply copy_in_idx.
Qed.

Lemma wf_shrink_segment NDEBUG b i start cnt idx b' :
  wf b → shrink_segment NDEBUG b i start cnt idx = Some b' → wf b'.
Proof.
  intros Hwf. unfold shrink_segment. unbind.
  intros [= <-]. by apply wf_set_seg.
Qed.

Lemma shrink_segment_size NDEBUG b i start cnt idx b' :
  shrink_segment NDEBUG b i start cnt idx = Some b' → size b' = size b.
Proof. unfold shrink_segment. unbind. by intros [= <-]. Qed.

Lemma wf_invalidate NDEBUG b segment start cnt idx b' :
  wf b → invalidate NDEBUG b segment start cnt idx = Some b' →
  wf b' ∧ size b' = size b.
Proof.
  intros Hwf. unfold invalidate.
  destruct (_ && _); [|by intros [= <-]].
  destruct (segment_to_use _ _ _ _ _) as [u|]; simpl; [|done].
  assert ((∃ b1, wf b1 ∧ size b1 = size b ∧
            (if (segment =? 2) && (1 - u =? 1)
             then shrink_segment NDEBUG b 1 start cnt idx
             else Some b) = Some b1) ∨
          (if (segment =? 2) && (1 - u =? 1)
           then shrink_segment NDEBUG b 1 start cnt idx
           else Some b) = None) as Hfirst.
  { destruct (_ && _); [|by left; exists b].
    destruct (shrink_segment NDEBUG b 1 start cnt idx) as [b1|] eqn:H1;
      [left; exists b1|by right].
    split; [by eapply wf_shrink_segment|].
    split; [by eapply shrink_segment_size|done]. }
  destruct Hfirst as [[b1 (Hwf1 & Hs1 & ->)] | ->]; simpl; [|done].
  destruct (_ && _).
  - intros H2. split; [by eapply wf_shrink_segment|].
    rewrite <- Hs1. by eapply shrink_segment_size.
  - by intros [= <-].
Qed.

Lemma wf_read NDEBUG lm b dest start cnt commit b' n dest' :
  wf b → read NDEBUG lm b dest start cnt commit = Some (b', n, dest') → wf b'.
Proof.
  intros Hwf. unfold read.
  destruct lm; simpl; [|by intros [= <- _ _]].
  destruct (find_segment b start cnt) as [segment idx].
  destruct (_ && _).
  - intros [= <- _ _]. destruct commit; [|done].
    apply wf_set_read_idx; [done | by destruct Hwf].
  - destruct (copy_out b dest idx cnt) as [d i] eqn:Hc.
    destruct commit; [|by intros [= <- _ _]].
    destruct (invalidate _ _ _ _ _ _) as [b1|] eqn:Hi; simpl; [|done].
    intros [= <- _ _].
    destruct (wf_invalidate _ _ _ _ _ _ _ Hwf Hi) as [Hwf1 Hs].
    apply wf_set_read_idx; [done|]. rewrite Hs.
    change i with (d, i).2. rewrite <- Hc. by apply copy_out_idx.
Qed.

Lemma wf_step NDEBUG b c b' : wf b → step NDEBUG b c = Some b' → wf b'.
Proof.
  intros Hwf. destruct c as [start|src start cnt|lm dest start cnt commit|cnt|];
    simpl.
  - intros [= <-]. by apply wf_reset.
  - destruct (write _ _ _ _ _) as [[b1 n]|] eqn:Hw; simpl; [|done].
    intros [= <-]. by eapply wf_write.
  - destruct (read _ _ _ _ _ _ _) as [[[b1 n] d]|] eqn:Hr; simpl; [|done].
    intros [= <-]. by eapply wf_read.
  - intros [= <-]. by apply wf_increment_read_idx.
  - intros [= <-]. by apply wf_read_flush.
Qed.

Lemma wf_run NDEBUG cs : ∀ b b', wf b → run NDEBUG b cs = Some b' → wf b'.
Proof.
  induction cs as [|c cs IH]; simpl; intros b b' Hwf.
  - by intros [= <-].
  - destruct (step NDEBUG b c) as [b1|] eqn:Hs; simpl; [|done].
    intros Hr. eapply IH; [|done]. by eapply wf_step.
Qed.

Lemma power_of_two_loop_range fuel : ∀ p0 sz p,
  power_of_two_loop fuel p0 sz = Some p → p0 ≤ p < p0 + Z.of_nat fuel.
Proof.
  induction fuel as [|fuel IH]; simpl; intros p0 sz p; [done|].
  destruct (_ <? _).
  - intros H. apply IH in H. lia.
  - intros [= <-]. lia.
Qed.

Lemma wf_new sz res (mem : nat → T) junk b :
  is_guint res → new_RaRingBuffer sz res mem junk = Some b → wf b.
Proof.
  intros Hres. unfold new_RaRingBuffer.
  destruct (power_of_two_loop _ _ _) as [p|] eqn:Hp; simpl; [|done].
  apply power_of_two_loop_range in Hp.
  intros [= <-]. apply wf_reset.
  assert (Hsz : to_guint (Z.shiftl 1 p) = 2 ^ p).
  { rewrite Z.shiftl_1_l. apply to_guint_small. split; [lia|].
    apply Z.pow_lt_mono_r; lia. }
  assert (2 ≤ 2 ^ p ≤ 2 ^ 31).
  { split; [|apply Z.pow_le_mono_r; lia].
    change 2 with (2 ^ 1) at 1. apply Z.pow_le_mono_r; lia. }
  rewrite Hsz. constructor; simpl; try done.
  - rewrite Z.log2_pow2; lia.
  - apply to_guint_small. lia.
  - lia.
  - lia.
  - by rewrite length_map, length_seq.
Qed.

Lemma reachable_wf NDEBUG b : reachable NDEBUG b → wf b.
Proof.
  intros (sz & res & mem & junk & b0 & cs & _ & Hres & Hnew & _ & Hrun).
  eapply wf_run; [|done]. by eapply wf_new.
Qed.

(** ** The available space *)

Lemma write_space_eq b :
  wf b →
  write_space b = Z.max 0 (free_distance b - reservation b - 1).
Proof.
  intros Hwf. pose proof Hwf as [_ Hs _ Hw Hr [Hres0 Hres1] _].
  unfold write_space, free_distance, ring_distance.
  rewrite wf_land by done.
  rewrite to_guint_plus_l.
  assert (Hrv : ∀ rv, 0 ≤ rv ≤ size b →
            (if rv >? reservation b
             then to_guint (to_guint (rv - 1) - reservation b) else 0)
            = Z.max 0 (rv - reservation b - 1)).
  { intros rv Hrv. destruct (Z.gtb_spec rv (reservation b)); [|lia].
    rewrite to_guint_minus_l, to_guint_small; lia. }
  destruct (Z.gtb_spec (write_idx b) (read_idx b)).
  - rewrite (proj2 (Z.eqb_neq _ _)) by lia.
    rewrite to_guint_small by lia.
    rewrite (mod_lap_back (size b) (read_idx b - write_idx b)) by lia.
    rewrite Z.mod_small by lia. apply Hrv. lia.
  - destruct (Z.ltb_spec (write_idx b) (read_idx b)).
    + rewrite (proj2 (Z.eqb_neq _ _)) by lia.
      rewrite to_guint_small by lia.
      rewrite Z.mod_small by lia. apply Hrv. lia.
    + rewrite (proj2 (Z.eqb_eq _ _)) by lia. apply Hrv. lia.
Qed.

Lemma write_space_range b : wf b → 0 ≤ write_space b < size b.
Proof.
  intros Hwf. rewrite write_space_eq by done.
  pose proof Hwf as [_ Hs _ Hw Hr [Hres0 Hres1] _].
  unfold free_distance, ring_distance.
  destruct (_ =? _); [lia|].
  pose proof (Z.mod_pos_bound (read_idx b - write_idx b) (size b)). lia.
Qed.

(** ** The shape of a write *)

Lemma assert_true NDEBUG : assert NDEBUG true = Some tt.
Proof. by destruct NDEBUG. Qed.

Lemma seg_get_0 (ss : Segment * Segment) : seg_get ss 0 = fst ss.
Proof. reflexivity. Qed.

Lemma seg_get_1 (ss : Segment * Segment) : seg_get ss 1 = snd ss.
Proof. reflexivity. Qed.

Lemma seg_set_0 (ss : Segment * Segment) x : seg_set ss 0 x = (x, snd ss).
Proof. reflexivity. Qed.

Lemma seg_set_1 (ss : Segment * Segment) x : seg_set ss 1 x = (fst ss, x).
Proof. reflexivity. Qed.

Ltac seg_simpl :=
  change (1 - 1) with 0; change (1 - 0) with 1;
  rewrite ?seg_get_0, ?seg_get_1, ?seg_set_0, ?seg_set_1; simpl.

(** The last branch of the segment choice, with its refusal, is never
    taken: the three tests before it cover every state. *)
Lemma choose_segment_eq NDEBUG b start :
  choose_segment NDEBUG b start =
  Some (if (write_start_offset (fst (_seg b)) =? 0)
           && (write_start_offset (snd (_seg b)) =? 0)
        then Chosen 0 (mkSegment (write_idx b) start
                         (write_start_offset (fst (_seg b)))
                         (write_reversed (fst (_seg b))),
                       snd (_seg b))
        else if negb (write_start_offset (fst (_seg b)) =? 0)
             then Chosen 0 (_seg b)
             else Chosen 1 (_seg b)).
Proof.
  unfold choose_segment, seg_get, seg_set. simpl.
  destruct (write_start_offset (fst (_seg b)) =? 0);
    destruct (write_start_offset (snd (_seg b)) =? 0); reflexivity.
Qed.

(** What a write that returned has done: nothing, when there was no
    space; otherwise it has copied [n] elements, the smaller of [cnt] and
    the space, and stored one segment [i], which either continues at
    [start] or is opened at [start] and at the write index. *)
Lemma write_inv NDEBUG b src start cnt b' n :
  write NDEBUG b src start cnt = Some (b', n) →
  (write_space b = 0 ∧ b' = b ∧ n = 0) ∨
  (write_space b ≠ 0 ∧
   n = (if cnt >? write_space b then write_space b else cnt) ∧
   ∃ i x,
     (i = 0 ∨ i = 1) ∧
     b' = set_write_idx
            (set_seg (set_buf b (copy_in b src n).1) (seg_set (_seg b) i x))
            (copy_in b src n).2 ∧
     ((last_range_end (seg_get (_seg b) i) = start ∧
       x = set_write_start_offset (seg_get (_seg b) i)
             (write_start_offset (seg_get (_seg b) i) + n)) ∨
      x = mkSegment (write_idx b) start n
            (write_reversed (seg_get (_seg b) i)))).
Proof.
  unfold write. rewrite choose_segment_eq. simpl.
  set (n0 := if cnt >? write_space b then write_space b else cnt).
  assert (Hfin : ∀ i ss,
    (i = 0 ∨ i = 1) →
    (last_range_end (seg_get (_seg b) i) = start ∧ seg_get ss i = seg_get (_seg b) i) ∨
    seg_get ss i = mkSegment (write_idx b) start 0
                    (write_reversed (seg_get (_seg b) i)) →
    (if write_space b =? 0 then Some (b, 0)
     else let '(buf2, priv_write_idx) := copy_in b src n0 in
          Some (set_write_idx
                  (set_seg (set_buf b buf2)
                     (seg_set (_seg (set_buf b buf2)) i
                        (set_write_start_offset (seg_get ss i)
                           (write_start_offset (seg_get ss i) + n0))))
                  priv_write_idx, n0)) = Some (b', n) →
    (write_space b = 0 ∧ b' = b ∧ n = 0) ∨
    (write_space b ≠ 0 ∧ n = n0 ∧
     ∃ i x, (i = 0 ∨ i = 1) ∧
       b' = set_write_idx
              (set_seg (set_buf b (copy_in b src n).1) (seg_set (_seg b) i x))
              (copy_in b src n).2 ∧
       ((last_range_end (seg_get (_seg b) i) = start ∧
         x = set_write_start_offset (seg_get (_seg b) i)
               (write_start_offset (seg_get (_seg b) i) + n)) ∨
        x = mkSegment (write_idx b) start n
              (write_reversed (seg_get (_seg b) i))))).
  { intros i ss Hi Hs. destruct (Z.eqb_spec (write_space b) 0) as [H0|H0].
    - intros [= <- <-]. by left.
    - destruct (copy_in b src n0) as [m w] eqn:Hc. intros [= <- <-].
      right. split; [done|]. split; [done|]. exists i.
      eexists. split; [done|]. rewrite Hc. simpl. split; [reflexivity|].
      destruct Hs as [[Hl ->] | ->]; [by left|right].
      unfold set_write_start_offset. simpl. f_equal. }
  unfold start_new_segment.
  destruct (Z.eqb_spec (write_start_offset (fst (_seg b))) 0) as [H0|H0];
    [destruct (Z.eqb_spec (write_start_offset (snd (_seg b))) 0) as [H1|H1]|];
    simpl; seg_simpl.
  - rewrite H0, Z.add_0_r, Z.eqb_refl. simpl.
    apply (Hfin 0 (mkSegment (write_idx b) start 0
                     (write_reversed (fst (_seg b))), snd (_seg b)));
      [by left|by right].
  - destruct (Z.eqb_spec start (write_start_pos (snd (_seg b))
                                + write_start_offset (snd (_seg b)))); simpl.
    + apply (Hfin 1 (_seg b)); [by right|by left].
    + rewrite H0. simpl. rewrite assert_true. simpl.
      apply (Hfin 0 (mkSegment (write_idx b) start 0
                       (write_reversed (fst (_seg b))), snd (_seg b)));
        [by left|by right].
  - destruct (Z.eqb_spec start (write_start_pos (fst (_seg b))
                                + write_start_offset (fst (_seg b)))); simpl.
    + apply (Hfin 0 (_seg b)); [by left|by left].
    + destruct (assert NDEBUG _) as [[]|]; simpl; [|done].
      apply (Hfin 1 (fst (_seg b), mkSegment (write_idx b) start 0
                                     (write_reversed (snd (_seg b)))));
        [by right|by right].
Qed.

(** A write call aborts in one case only: a build with assertions, both
    segments in use, and a start that does not continue segment 0. *)
Lemma write_aborts_iff NDEBUG b src start cnt :
  write NDEBUG b src start cnt = None ↔
  NDEBUG = false ∧
  write_start_offset (fst (_seg b)) ≠ 0 ∧
  write_start_offset (snd (_seg b)) ≠ 0 ∧
  start ≠ last_range_end (fst (_seg b)).
Proof.
  unfold write, last_range_end. rewrite choose_segment_eq. simpl.
  assert (Hrest : ∀ i ss,
    (if write_space b =? 0 then Some (b, 0)
     else let '(buf2, priv_write_idx) :=
            copy_in b src (if cnt >? write_space b
                           then write_space b else cnt) in
          Some (set_write_idx
                  (set_seg (set_buf b buf2)
                     (seg_set (_seg (set_buf b buf2)) i
                        (set_write_start_offset (seg_get ss i)
                           (write_start_offset (seg_get ss i)
                            + (if cnt >? write_space b
                               then write_space b else cnt)))))
                  priv_write_idx,
                if cnt >? write_space b then write_space b else cnt))
    ≠ None).
  { intros i ss. destruct (write_space b =? 0); [done|].
    by destruct (copy_in _ _ _). }
  unfold start_new_segment.
  destruct (Z.eqb_spec (write_start_offset (fst (_seg b))) 0) as [H0|H0];
    [destruct (Z.eqb_spec (write_start_offset (snd (_seg b))) 0) as [H1|H1]|];
    simpl; seg_simpl.
  - rewrite H0, Z.add_0_r, Z.eqb_refl. simpl.
    split; [intros H; by apply Hrest in H | tauto].
  - destruct (Z.eqb_spec start (write_start_pos (snd (_seg b))
                                + write_start_offset (snd (_seg b)))); simpl.
    + split; [intros H; by apply Hrest in H | tauto].
    + rewrite H0. simpl. rewrite assert_true. simpl.
      split; [intros H; by apply Hrest in H | tauto].
  - destruct (Z.eqb_spec start (write_start_pos (fst (_seg b))
                                + write_start_offset (fst (_seg b)))); simpl.
    + split; [intros H; by apply Hrest in H | tauto].
    + unfold assert.
      destruct NDEBUG,
        (Z.eqb_spec (write_start_offset (snd (_seg b))) 0); simpl;
        (split; [intros H; by apply Hrest in H | intros (? & ? & ? & ?); done])
        || done.
Qed.

(** ** The reservation bound *)

Lemma ring_distance_eq b x y :
  0 < size b → 0 ≤ x < size b → 0 ≤ y < size b →
  ring_distance b x y = if x <=? y then y - x else y - x + size b.
Proof.
  intros. unfold ring_distance. destruct (Z.leb_spec x y).
  - apply Z.mod_small. lia.
  - apply mod_lap_back. lia.
Qed.

Lemma copy_in_idx_eq b src n :
  wf b → 0 ≤ n < size b →
  (copy_in b src n).2 = (write_idx b + n) mod size b.
Proof.
  intros Hwf Hn. pose proof Hwf as [_ Hs _ Hw _ _ _].
  unfold copy_in.
  rewrite (to_guint_small (write_idx b + n)) by lia.
  destruct (Z.gtb_spec (write_idx b + n) (size b)); simpl;
    rewrite ?wf_land by done.
  - rewrite (mod_lap (size b)) by lia.
    destruct (Z.eqb_spec (write_idx b + n - size b) 0); [lia|done].
  - by rewrite to_guint_small by lia.
Qed.

Lemma write_count NDEBUG b src start cnt b' n :
  wf b → is_guint cnt → write NDEBUG b src start cnt = Some (b', n) →
  n = Z.min cnt (write_space b).
Proof.
  intros Hwf [Hc _] Hw. pose proof (write_space_range b Hwf).
  apply write_inv in Hw as [(H0 & _ & ->) | (_ & -> & _)]; [lia|].
  destruct (Z.gtb_spec cnt (write_space b)); lia.
Qed.

Lemma write_fields NDEBUG b src start cnt b' n :
  write NDEBUG b src start cnt = Some (b', n) →
  size b' = size b ∧ size_mask b' = size_mask b ∧
  reservation b' = reservation b ∧ read_idx b' = read_idx b ∧
  (write_space b = 0 → b' = b) ∧
  (write_space b ≠ 0 → write_idx b' = (copy_in b src n).2).
Proof.
  intros Hw.
  apply write_inv in Hw as [(H0 & -> & ->) | (H0 & _ & i & x & _ & -> & _)];
    simpl; repeat split; try done.
Qed.

(** A write that found space leaves the write index within the bound,
    whatever the distance was before. *)
Lemma write_publishes_within NDEBUG b src start cnt b' n :
  wf b → is_guint cnt → write NDEBUG b src start cnt = Some (b', n) →
  0 < write_space b → within_reservation b'.
Proof.
  intros Hwf Hc Hw Hfree.
  pose proof (write_count _ _ _ _ _ _ _ Hwf Hc Hw) as Hn.
  pose proof (write_space_range b Hwf) as Hr.
  destruct (write_fields _ _ _ _ _ _ _ Hw) as (Hs & _ & Hres & Hri & _ & Hwi).
  pose proof Hwf as [_ Hsz _ Hw0 Hr0 [Hres0 _] _]. destruct Hc as [Hc0 _].
  unfold within_reservation, ring_distance.
  rewrite Hs, Hres, Hri, Hwi by lia.
  rewrite copy_in_idx_eq by (done || lia).
  rewrite Zminus_mod_idemp_l.
  rewrite write_space_eq in Hn, Hfree, Hr by done.
  unfold free_distance in Hn, Hfree, Hr.
  destruct (Z.eqb_spec (write_idx b) (read_idx b)) as [He|He].
  - rewrite Z.mod_small by lia. lia.
  - rewrite (ring_distance_eq b (write_idx b) (read_idx b)) in Hn, Hfree, Hr
      by lia.
    destruct (Z.leb_spec (write_idx b) (read_idx b)).
    + rewrite (mod_lap_back (size b)) by lia. lia.
    + rewrite Z.mod_small by lia. lia.
Qed.

Lemma write_within NDEBUG b src start cnt b' n :
  wf b → is_guint cnt → write NDEBUG b src start cnt = Some (b', n) →
  within_reservation b → within_reservation b'.
Proof.
  intros Hwf Hc Hw Hin.
  destruct (Z.eqb_spec (write_space b) 0) as [H0|H0].
  - destruct (write_fields _ _ _ _ _ _ _ Hw) as (_ & _ & _ & _ & Hb & _).
    by rewrite Hb.
  - eapply write_publishes_within; [done..|].
    pose proof (write_space_range b Hwf). lia.
Qed.

Lemma writes_within NDEBUG cs : ∀ b b',
  wf b → within_reservation b →
  Forall is_write cs → Forall well_typed cs →
  run NDEBUG b cs = Some b' → within_reservation b'.
Proof.
  induction cs as [|c cs IH]; simpl; intros b b' Hwf Hin Hws Hty.
  - by intros [= <-].
  - inversion Hws as [|? ? Hc Hws']; subst.
    inversion Hty as [|? ? Ht Hty']; subst.
    destruct c as [|src start cnt| | |]; try done. simpl.
    destruct (write NDEBUG b src start cnt) as [[b1 n]|] eqn:Hw; simpl;
      [|done].
    apply IH; try done.
    + by eapply wf_write.
    + eapply write_within; [done| |done..]. apply Ht.
Qed.

(** ** Segment exclusivity *)

Lemma write_space_nonneg b : 0 ≤ write_space b.
Proof.
  unfold write_space. destruct (_ >? reservation b); [|done].
  apply to_guint_range.
Qed.

Lemma write_exclusive NDEBUG b src start cnt b' n :
  is_guint cnt → write NDEBUG b src start cnt = Some (b', n) →
  exclusive b → uncached b start cnt → exclusive b'.
Proof.
  intros [Hc _] Hw Hex Hun. pose proof (write_space_nonneg b) as Hsp.
  apply write_inv in Hw as [(_ & -> & _) | (_ & Hn & i & x & Hi & -> & Hx)];
    [done|].
  assert (0 ≤ n ≤ cnt) as Hn'.
  { rewrite Hn. destruct (Z.gtb_spec cnt (write_space b)); lia. }
  clear Hn Hsp.
  unfold exclusive, uncached, active, disjoint_ranges, first_range_start,
    last_range_end in *. simpl.
  destruct Hi as [-> | ->]; rewrite ?seg_get_0, ?seg_get_1 in Hx; seg_simpl.
  - intros Ha0 Ha1 y Hy0 Hy1.
    specialize (Hun (snd (_seg b)) (or_intror eq_refl) Ha1 y).
    destruct Hx as [[Hl ->] | ->]; simpl in *.
    + destruct (Z.lt_ge_cases y start) as [Hlt|Hge]; [|lia].
      assert (0 < write_start_offset (fst (_seg b))) as Ha by lia.
      specialize (Hex Ha Ha1 y). lia.
    + lia.
  - intros Ha0 Ha1 y Hy0 Hy1.
    specialize (Hun (fst (_seg b)) (or_introl eq_refl) Ha0 y).
    destruct Hx as [[Hl ->] | ->]; simpl in *.
    + destruct (Z.lt_ge_cases y start) as [Hlt|Hge]; [|lia].
      assert (0 < write_start_offset (snd (_seg b))) as Ha by lia.
      specialize (Hex Ha0 Ha y). lia.
    + lia.
Qed.

Lemma writes_exclusive NDEBUG cs : ∀ b b',
  exclusive b → Forall well_typed cs → writes_uncached NDEBUG b cs →
  run NDEBUG b cs = Some b' → exclusive b'.
Proof.
  induction cs as [|c cs IH]; simpl; intros b b' Hex Hty Hun.
  - by intros [= <-].
  - inversion Hty as [|? ? Ht Hty']; subst.
    destruct Hun as [Hc Hun].
    destruct c as [|src start cnt| | |]; try done. simpl in *.
    destruct (write NDEBUG b src start cnt) as [[b1 n]|] eqn:Hw; simpl in *;
      [|done].
    apply IH; try done. eapply write_exclusive; [|done..]. apply Ht.
Qed.

(** ** Copies in and out of the ring *)

Lemma list_inserts_split (l k : list T) (i : nat) :
  (i + length k ≤ length l)%nat →
  list_inserts i k l = take i l ++ k ++ drop (i + length k) l.
Proof.
  intros Hl.
  rewrite <- (take_drop i l) at 1.
  replace i with (length (take i l) + 0)%nat at 1
    by (rewrite length_take; lia).
  rewrite list_inserts_app_r. f_equal.
  rewrite <- (take_drop (length k) (drop i l)) at 1.
  rewrite list_inserts_0_r by (rewrite length_take, length_drop; lia).
  by rewrite drop_drop.
Qed.

Lemma copy_out_ext (b1 b2 : RaRingBuffer T) dest i n :
  buf b1 = buf b2 → size b1 = size b2 → size_mask b1 = size_mask b2 →
  copy_out b1 dest i n = copy_out b2 dest i n.
Proof. intros Hb Hs Hm. unfold copy_out. by rewrite Hb, Hs, Hm. Qed.

(** What a write copies in, a read from the same slot copies out. *)
Lemma ring_roundtrip b src dest n :
  wf b → 0 ≤ n < size b →
  Z.of_nat (length src) = n → n ≤ Z.of_nat (length dest) →
  take (Z.to_nat n)
    (copy_out (set_buf b (copy_in b src n).1) dest (write_idx b) n).1 = src.
Proof.
  intros Hwf Hn Hsrc Hdest.
  pose proof Hwf as [_ Hs _ Hw _ _ Hbuf].
  unfold copy_out, copy_in. simpl.
  rewrite (to_guint_small (write_idx b + n)) by lia.
  destruct (Z.gtb_spec (write_idx b + n) (size b)) as [Hwrap|Hflat]; simpl.
  - rewrite wf_land by done. rewrite (mod_lap (size b)) by lia.
    rewrite (to_guint_small (size b - write_idx b)) by lia.
    destruct (Z.eqb_spec (write_idx b + n - size b) 0) as [|_]; [lia|].
    simpl. unfold memcpy. simpl. rewrite !drop_0.
    set (w := Z.to_nat (write_idx b)).
    set (n1 := Z.to_nat (size b - write_idx b)).
    set (n2 := Z.to_nat (write_idx b + n - size b)).
    assert (length (take n1 src) = n1) as Hl1
      by (rewrite length_take; lia).
    assert (length (take n2 (drop n1 src)) = n2) as Hl2
      by (rewrite length_take, length_drop; lia).
    assert (take n2 (drop n1 src) = drop n1 src) as HB
      by (apply take_ge; rewrite length_drop; lia).
    rewrite (list_inserts_split (buf b) _ w) by lia.
    rewrite Hl1. rewrite (drop_ge (buf b) (w + n1)), app_nil_r by lia.
    rewrite (list_inserts_split _ _ 0)
      by (rewrite Hl2, length_app, length_take; lia).
    rewrite Hl2. simpl.
    rewrite (drop_app_le _ _ n2) by (rewrite length_take; lia).
    rewrite (take_app_le (take n2 (drop n1 src)) _ n2) by lia.
    rewrite (take_ge (take n2 (drop n1 src)) n2) by lia.
    rewrite (app_assoc (take n2 (drop n1 src))).
    rewrite (drop_app_length' _ _ w)
      by (rewrite length_app, Hl2, length_drop, length_take; lia).
    rewrite (take_ge (take n1 src) n1) by lia.
    change (Z.to_nat 0) with 0%nat.
    replace n1 with (length (take n1 src) + 0)%nat at 1 by lia.
    rewrite <- list_inserts_app_l.
    rewrite HB, take_drop.
    rewrite (list_inserts_split dest src 0) by lia. simpl.
    apply take_app_length'. lia.
  - replace (0 =? 0) with true by done. simpl.
    unfold memcpy. simpl. rewrite !drop_0.
    set (w := Z.to_nat (write_idx b)).
    change (Z.to_nat 0) with 0%nat.
    rewrite (take_ge src) by lia.
    rewrite (list_inserts_split (buf b) src w) by lia.
    rewrite (drop_app_length' _ _ w) by (rewrite length_take; lia).
    rewrite (take_app_length' src) by lia.
    rewrite (list_inserts_split dest src 0) by lia. simpl.
    apply take_app_length'. lia.
Qed.

(** The copy of [write] changes no slot beyond the [n] slots that follow
    the write index. *)
Lemma copy_in_untouched b src n j :
  wf b → 0 ≤ n < size b → 0 ≤ j < size b →
  n ≤ ring_distance b (write_idx b) j →
  (copy_in b src n).1 !! Z.to_nat j = buf b !! Z.to_nat j.
Proof.
  intros Hwf Hn Hj Hd. pose proof Hwf as [_ Hs _ Hw _ _ Hbuf].
  rewrite ring_distance_eq in Hd by lia.
  unfold copy_in.
  rewrite (to_guint_small (write_idx b + n)) by lia.
  destruct (Z.gtb_spec (write_idx b + n) (size b)) as [Hwrap|Hflat]; simpl.
  - rewrite wf_land by done. rewrite (mod_lap (size b)) by lia.
    rewrite (to_guint_small (size b - write_idx b)) by lia.
    destruct (Z.eqb_spec (write_idx b + n - size b) 0) as [|_]; [lia|].
    simpl. unfold memcpy. change (Z.to_nat 0) with 0%nat.
    destruct (Z.leb_spec (write_idx b) j); [lia|].
    rewrite list_lookup_inserts_ge by (rewrite length_take; lia).
    apply list_lookup_inserts_lt. lia.
  - unfold memcpy.
    destruct (Z.leb_spec (write_idx b) j).
    + apply list_lookup_inserts_ge. rewrite length_take. lia.
    + apply list_lookup_inserts_lt. lia.
Qed.

(** The copy of [write] puts the [j]-th element of [src] into the
    [j]-th slot after the write index. *)
Lemma copy_in_written b src n j :
  wf b → 0 ≤ n < size b → n ≤ Z.of_nat (length src) → 0 ≤ j < n →
  (copy_in b src n).1 !! Z.to_nat ((write_idx b + j) mod size b)
  = src !! Z.to_nat j.
Proof.
  intros Hwf Hn Hsrc Hj. pose proof Hwf as [_ Hs _ Hw _ _ Hbuf].
  unfold copy_in.
  rewrite (to_guint_small (write_idx b + n)) by lia.
  destruct (Z.gtb_spec (write_idx b + n) (size b)) as [Hwrap|Hflat]; simpl.
  - rewrite wf_land by done. rewrite (mod_lap (size b) (_ + n)) by lia.
    rewrite (to_guint_small (size b - write_idx b)) by lia.
    destruct (Z.eqb_spec (write_idx b + n - size b) 0) as [|_]; [lia|].
    simpl. unfold memcpy. change (Z.to_nat 0) with 0%nat. rewrite drop_0.
    destruct (Z.lt_ge_cases (write_idx b + j) (size b)).
    + rewrite Z.mod_small by lia.
      rewrite list_lookup_inserts_ge by (rewrite length_take; lia).
      rewrite list_lookup_inserts
        by (rewrite ?length_take, ?length_drop; lia).
      rewrite lookup_take_lt by lia. f_equal. lia.
    + rewrite mod_lap by lia.
      rewrite list_lookup_inserts
        by (rewrite ?length_inserts, ?length_take, ?length_drop; lia).
      rewrite lookup_take_lt by lia. rewrite lookup_drop. f_equal. lia.
  - unfold memcpy. change (Z.to_nat 0) with 0%nat. rewrite drop_0.
    rewrite Z.mod_small by lia.
    rewrite list_lookup_inserts by (rewrite ?length_take; lia).
    rewrite lookup_take_lt by lia. f_equal. lia.
Qed.

Lemma write_untouched NDEBUG b src start cnt b' n j :
  wf b → is_guint cnt → write NDEBUG b src start cnt = Some (b', n) →
  0 ≤ j < size b → n ≤ ring_distance b (write_idx b) j →
  buf b' !! Z.to_nat j = buf b !! Z.to_nat j.
Proof.
  intros Hwf Hc Hw Hj Hd.
  pose proof (write_count _ _ _ _ _ _ _ Hwf Hc Hw) as Hn.
  pose proof (write_space_range b Hwf). destruct Hc.
  apply write_inv in Hw as [(_ & -> & _) | (_ & _ & i & x & _ & -> & _)];
    [done|].
  simpl. apply copy_in_untouched; try done. lia.
Qed.

(** A write moves the write index past the slots it copied to, and the
    [j]-th of them holds the [j]-th element of [src]. *)
Lemma write_written NDEBUG b src start cnt b' n :
  wf b → is_guint cnt → write NDEBUG b src start cnt = Some (b', n) →
  write_idx b' = (write_idx b + n) mod size b ∧
  (n ≤ Z.of_nat (length src) →
   ∀ j, 0 ≤ j < n →
        buf b' !! Z.to_nat ((write_idx b + j) mod size b)
        = src !! Z.to_nat j).
Proof.
  intros Hwf Hc Hw.
  pose proof (write_count _ _ _ _ _ _ _ Hwf Hc Hw) as Hn.
  pose proof (write_space_range b Hwf). destruct Hc.
  pose proof Hwf as [_ Hs _ Hwi _ _ _].
  apply write_inv in Hw as [(_ & -> & ->) | (_ & _ & i & x & _ & -> & _)].
  - split; [|intros; lia]. rewrite Z.add_0_r, Z.mod_small; lia.
  - simpl. split.
    + apply copy_in_idx_eq; [done|lia].
    + intros Hsrc j Hj. apply copy_in_written; try done; lia.
Qed.

(** The slot that [read] computes is the slot of the segment's end, moved
    back by the distance from [start] to that end. *)
Lemma read_slot_eq b s start :
  wf b → start ≤ last_range_end s →
  read_slot b s start
  = (index s + write_start_offset s - (last_range_end s - start)) mod size b.
Proof.
  intros Hwf Hback. pose proof Hwf as [_ Hs _ _ _ _ _].
  unfold read_slot, last_range_end in *. rewrite !wf_land by done.
  set (e := index s + write_start_offset s).
  set (back := write_start_pos s + write_start_offset s - start).
  pose proof (Z.mod_pos_bound e (size b)) as He.
  rewrite (to_int_small (e mod size b)) by lia.
  rewrite <- (Zminus_mod_idemp_l e).
  destruct (Z.gtb_spec (e mod size b) back).
  - rewrite to_guint_small by lia. symmetry. apply Z.mod_small. lia.
  - rewrite (to_guint_small (size b + _)) by lia.
    pose proof (Z.mod_pos_bound (size b + e mod size b - back) (size b)).
    rewrite to_guint_small by lia.
    replace (size b + e mod size b - back)
      with (e mod size b - back + 1 * size b) by lia.
    apply Z_mod_plus_full.
Qed.

(** ** Write, then read *)

Lemma write_on_reset NDEBUG b src P cnt :
  write NDEBUG (reset b P) src P cnt =
  Some (if write_space (reset b P) =? 0 then (reset b P, 0)
        else
          let n := if cnt >? write_space (reset b P)
                   then write_space (reset b P) else cnt in
          (set_write_idx
             (set_seg (set_buf (reset b P) (copy_in (reset b P) src n).1)
                (mkSegment (read_idx b) P n (write_reversed (fst (_seg b))),
                 set_write_start_offset (snd (_seg b)) 0))
             (copy_in (reset b P) src n).2, n)).
Proof.
  unfold write. rewrite choose_segment_eq. simpl.
  unfold start_new_segment. seg_simpl.
  rewrite Z.add_0_r, Z.eqb_refl. simpl.
  destruct (write_space (reset b P) =? 0); [done|].
  by destruct (copy_in _ _ _).
Qed.

Lemma read_miss NDEBUG b dest start cnt commit :
  covers b (fst (_seg b)) start cnt = covers b (snd (_seg b)) start cnt →
  read NDEBUG true b dest start cnt commit =
  Some (if commit then set_read_idx b (write_idx b) else b, 0, dest).
Proof.
  intros Hc. unfold read, find_segment. seg_simpl. rewrite Hc.
  by destruct (covers b (snd (_seg b)) start cnt).
Qed.

Lemma read_hit_0 NDEBUG b dest start cnt :
  covers b (fst (_seg b)) start cnt = true →
  covers b (snd (_seg b)) start cnt = false →
  read NDEBUG true b dest start cnt false =
  Some (b, cnt, (copy_out b dest (read_slot b (fst (_seg b)) start) cnt).1).
Proof.
  intros H0 H1. unfold read, find_segment. seg_simpl. rewrite H0, H1.
  simpl. by destruct (copy_out _ _ _ _).
Qed.

Lemma roundtrip_wf NDEBUG b P (data dest : list T) N :
  wf b →
  0 ≤ N ≤ size b - reservation b - 1 →
  Z.of_nat (length data) = N →
  N ≤ Z.of_nat (length dest) →
  ∃ b1 dest',
    write NDEBUG (reset b P) data P N = Some (b1, N) ∧
    read NDEBUG true b1 dest P N false = Some (b1, N, dest') ∧
    take (Z.to_nat N) dest' = data.
Proof.
  intros Hwf HN Hdata Hdest.
  pose proof (wf_reset b P Hwf) as Hwf'.
  pose proof Hwf as [_ Hs _ _ Hr [Hres _] _].
  assert (Hws : write_space (reset b P)
                = Z.max 0 (size b - reservation b - 1)).
  { rewrite write_space_eq by done. unfold free_distance. simpl.
    by rewrite Z.eqb_refl. }
  rewrite write_on_reset, Hws.
  destruct (Z.eq_dec N 0) as [->|HN0].
  - (* nothing to write: every read of zero elements is a miss *)
    assert (data = []) as -> by (destruct data; [done|simpl in *; lia]).
    destruct (Z.eqb_spec (Z.max 0 (size b - reservation b - 1)) 0).
    + exists (reset b P), dest. split; [done|]. split; [|done].
      by apply read_miss.
    + destruct (Z.gtb_spec 0 (Z.max 0 (size b - reservation b - 1)));
        [lia|].
      eexists _, dest. split; [reflexivity|]. split; [|done].
      by apply read_miss.
  - destruct (Z.eqb_spec (Z.max 0 (size b - reservation b - 1)) 0); [lia|].
    destruct (Z.gtb_spec N (Z.max 0 (size b - reservation b - 1))); [lia|].
    cbv zeta.
    set (b1 := set_write_idx _ _).
    exists b1.
    exists (copy_out b1 dest (read_idx b) N).1.
    split; [done|]. split.
    + assert (read_slot b1 (fst (_seg b1)) P = read_idx b) as Hslot.
      { rewrite read_slot_eq.
        2:{ subst b1. apply wf_set_write_idx;
              [apply wf_set_seg, wf_set_buf; [done|]; apply copy_in_length
              |simpl; by apply (copy_in_idx (reset b P))]. }
        2:{ unfold last_range_end. simpl. lia. }
        unfold last_range_end. simpl.
        replace (read_idx b + N - (P + N - P)) with (read_idx b) by lia.
        apply Z.mod_small. lia. }
      rewrite <- Hslot. apply read_hit_0; [|done].
      unfold covers. simpl. rewrite wf_size_guint by done.
      destruct (Z.ltb_spec 0 N); [|lia].
      rewrite Z.min_l by lia.
      apply andb_true_intro. split; apply Z.leb_le; lia.
    + rewrite (copy_out_ext b1
                 (set_buf (reset b P) (copy_in (reset b P) data N).1))
        by done.
      apply (ring_roundtrip (reset b P)); try done. simpl. lia.
Qed.

(** C1.  Round trip.  On a buffer in any reachable state, reset to the
    position [P], a write of [N] elements at [P], for [N] at most
    [size - reservation - 1], returns [N], and a read of [N] elements at
    [P] without commit then returns [N], leaves the state as it is, and
    puts the [N] elements written, in their order, into [dest]. *)
Theorem write_read_roundtrip NDEBUG b P (data dest : list T) N :
  reachable NDEBUG b →
  0 ≤ N ≤ size b - reservation b - 1 →
  Z.of_nat (length data) = N →
  N ≤ Z.of_nat (length dest) →
  ∃ b1 dest',
    write NDEBUG (reset b P) data P N = Some (b1, N) ∧
    read NDEBUG true b1 dest P N false = Some (b1, N, dest') ∧
    take (Z.to_nat N) dest' = data.
Proof.
  intros Hreach. apply roundtrip_wf. by eapply reachable_wf.
Qed.

(** C2, amended.  From a well-formed state in which the write index is at
    most [size - 1 - reservation] slots ahead of the read index, every run
    of write calls ends in a state [b1] with that bound, and one more write
    call copies [n = min cnt (write_space b1)] elements, no more than
    asked for: the [n] slots from the write index on receive the first
    [n] elements of [src], the write index moves past them, the read
    index stays, no other slot of the storage changes, and the call
    again ends within the bound. *)
Theorem write_keeps_reservation NDEBUG b cs b1 src start cnt b2 n :
  wf b → within_reservation b →
  Forall is_write cs → Forall well_typed cs →
  run NDEBUG b cs = Some b1 →
  is_guint cnt →
  write NDEBUG b1 src start cnt = Some (b2, n) →
  within_reservation b1 ∧
  n = Z.min cnt (write_space b1) ∧ n ≤ cnt ∧
  write_idx b2 = (write_idx b1 + n) mod size b1 ∧
  read_idx b2 = read_idx b1 ∧
  (n ≤ Z.of_nat (length src) →
   ∀ j, 0 ≤ j < n →
        buf b2 !! Z.to_nat ((write_idx b1 + j) mod size b1)
        = src !! Z.to_nat j) ∧
  (∀ j, 0 ≤ j < size b1 → n ≤ ring_distance b1 (write_idx b1) j →
        buf b2 !! Z.to_nat j = buf b1 !! Z.to_nat j) ∧
  within_reservation b2.
Proof.
  intros Hwf Hin Hws Hty Hrun Hc Hw.
  pose proof (wf_run _ _ _ _ Hwf Hrun) as Hwf1.
  pose proof (writes_within _ _ _ _ Hwf Hin Hws Hty Hrun) as Hin1.
  pose proof (write_count _ _ _ _ _ _ _ Hwf1 Hc Hw) as Hn.
  pose proof (write_written _ _ _ _ _ _ _ Hwf1 Hc Hw) as [Hidx Hdata].
  pose proof (write_fields _ _ _ _ _ _ _ Hw) as (_ & _ & _ & Hr & _).
  split; [done|]. split; [done|]. split; [lia|].
  split; [done|]. split; [done|]. split; [done|]. split.
  - intros j. by eapply write_untouched.
  - by eapply write_within.
Qed.

(** C3, amended.  The write protocol does not compare a new range with
    the ranges that the segments hold.  From a reset buffer, a run of write
    calls each of which writes positions that no active segment holds at
    the time ends in a state whose two segments, when both are active,
    have disjoint valid ranges. *)
Theorem uncached_writes_stay_exclusive NDEBUG b p cs b' :
  Forall well_typed cs →
  writes_uncached NDEBUG (reset b p) cs →
  run NDEBUG (reset b p) cs = Some b' →
  exclusive b'.
Proof.
  intros Hty Hun Hrun. eapply writes_exclusive; [|done..].
  unfold exclusive, active. simpl. lia.
Qed.

(** C5, amended.  The space that [write] works with is the forward
    distance from the write index to the read index, counted as a full lap
    of [size] slots when the two indices are equal, minus the reservation,
    minus one, and not below zero.  A write call that returns, returns 0
    exactly when that space is zero or zero elements were asked for. *)
Theorem write_space_formula NDEBUG b :
  wf b →
  write_space b = Z.max 0 (free_distance b - reservation b - 1) ∧
  ∀ src start cnt b' n,
    is_guint cnt →
    write NDEBUG b src start cnt = Some (b', n) →
    (n = 0 ↔ write_space b = 0 ∨ cnt = 0) ∧
    (write_space b = 0 → b' = b).
Proof.
  intros Hwf. split; [by apply write_space_eq|].
  intros src start cnt b' n Hc Hw.
  pose proof (write_count _ _ _ _ _ _ _ Hwf Hc Hw) as Hn.
  pose proof (write_space_range b Hwf).
  destruct (write_fields _ _ _ _ _ _ _ Hw) as (_ & _ & _ & _ & Hb & _).
  destruct Hc. split; [lia|done].
Qed.

(** The three branches of [next_write_pos] that can be taken. *)
Lemma next_write_pos_eq NDEBUG b :
  next_write_pos NDEBUG b =
  Some (if (write_start_offset (fst (_seg b)) =? 0)
           && (write_start_offset (snd (_seg b)) =? 0)
        then write_start_pos (fst (_seg b))
        else if negb (write_start_offset (fst (_seg b)) =? 0)
             then last_range_end (fst (_seg b))
             else last_range_end (snd (_seg b))).
Proof.
  unfold next_write_pos. seg_simpl.
  destruct (write_start_offset (fst (_seg b)) =? 0);
    destruct (write_start_offset (snd (_seg b)) =? 0); reflexivity.
Qed.

(** C7, amended.  For two segments with distinct slots, [segment_to_use]
    returns the segment whose slot is the smaller forward distance behind
    the write index [w], where a slot equal to [w] is a full lap behind,
    not zero. *)
Theorem segment_to_use_lap NDEBUG b s0 s1 w :
  0 < size b < 2 ^ 31 →
  0 ≤ index s0 < size b → 0 ≤ index s1 < size b → 0 ≤ w < size b →
  index s0 ≠ index s1 →
  segment_to_use NDEBUG b s0 s1 w =
  Some (if lap_distance b (index s0) w <? lap_distance b (index s1) w
        then 0 else 1).
Proof.
  intros Hs H0 H1 Hw Hne.
  assert (Hd : ∀ i, 0 ≤ i < size b →
            to_int (to_guint (to_guint (w - i)
                              + (if w >? i then 0 else size b)))
            = lap_distance b i w ∧
            lap_distance b i w = if i <? w then w - i else w - i + size b).
  { intros i Hi. unfold lap_distance.
    rewrite ring_distance_eq by lia. rewrite to_guint_plus_l.
    destruct (Z.gtb_spec w i), (Z.eqb_spec w i), (Z.leb_spec i w),
      (Z.ltb_spec i w); try lia;
      (rewrite to_guint_small, to_int_small by lia; lia). }
  unfold segment_to_use.
  destruct (Hd _ H0) as [-> E0]. destruct (Hd _ H1) as [-> E1].
  assert (lap_distance b (index s0) w ≠ lap_distance b (index s1) w) as Hd01.
  { rewrite E0, E1.
    destruct (Z.ltb_spec (index s0) w), (Z.ltb_spec (index s1) w); lia. }
  rewrite (proj2 (Z.eqb_neq _ _) Hd01). simpl. rewrite assert_true. simpl.
  by destruct (lap_distance b (index s0) w <? lap_distance b (index s1) w).
Qed.

(** C8.  After [reset p], from any state: both segments are inactive,
    segment 0 starts at [p], the write index equals the read index, which
    has not moved, [can_read] is false for every range, and
    [next_write_pos] returns [p]. *)
Theorem reset_discards NDEBUG b p :
  write_start_offset (fst (_seg (reset b p))) = 0 ∧
  write_start_offset (snd (_seg (reset b p))) = 0 ∧
  write_start_pos (fst (_seg (reset b p))) = p ∧
  write_idx (reset b p) = read_idx (reset b p) ∧
  read_idx (reset b p) = read_idx b ∧
  (∀ start cnt, can_read (reset b p) start cnt = false) ∧
  next_write_pos NDEBUG (reset b p) = Some p.
Proof.
  rewrite next_write_pos_eq. unfold can_read, covers. simpl.
  repeat split.
Qed.

(** The range test of the code decides [holds]. *)
Lemma covers_holds b s start cnt :
  wf b → covers b s start cnt = true ↔ holds b s start cnt.
Proof.
  intros Hwf. unfold covers, holds, active, first_range_start, last_range_end.
  rewrite wf_size_guint by done.
  destruct (Z.ltb_spec 0 (write_start_offset s)); [|split; [done|lia]].
  rewrite andb_true_iff, !Z.leb_le. tauto.
Qed.

(** C9.  Cache miss.  When the try-lock succeeded and the range is not in
    the valid range of exactly one active segment, a committing [read]
    leaves [dest] as it is and returns 0, and in the state it leaves the
    read index is the write index of the call's state, with every other
    field as before; without commit it returns 0 and changes nothing. *)
Theorem read_cache_miss NDEBUG b dest start cnt :
  wf b →
  ¬ (holds b (fst (_seg b)) start cnt ∧ ¬ holds b (snd (_seg b)) start cnt) →
  ¬ (¬ holds b (fst (_seg b)) start cnt ∧ holds b (snd (_seg b)) start cnt) →
  (∃ b', read NDEBUG true b dest start cnt true = Some (b', 0, dest) ∧
         read_idx b' = write_idx b ∧ write_idx b' = write_idx b ∧
         buf b' = buf b ∧ _seg b' = _seg b ∧ size b' = size b ∧
         size_mask b' = size_mask b ∧ reservation b' = reservation b) ∧
  read NDEBUG true b dest start cnt false = Some (b, 0, dest).
Proof.
  intros Hwf H10 H01.
  rewrite <- !covers_holds in H10, H01 by done.
  assert (covers b (fst (_seg b)) start cnt
          = covers b (snd (_seg b)) start cnt) as Hc.
  { destruct (covers b (fst (_seg b)) start cnt),
      (covers b (snd (_seg b)) start cnt); try done.
    - exfalso. apply H10. by split.
    - exfalso. apply H01. by split. }
  split; [|by rewrite read_miss].
  exists (set_read_idx b (write_idx b)). by rewrite read_miss.
Qed.

(** C10.  Double cover.  When the try-lock succeeded and the range is in
    the valid ranges of both active segments, [read] serves it from
    neither: [dest] stays as it is, the call returns 0, and in the state
    it leaves the read index is, with commit, the write index of the
    call's state and, without commit, what it was; every other field is
    as before. *)
Theorem read_double_cover NDEBUG b dest start cnt commit :
  wf b →
  holds b (fst (_seg b)) start cnt →
  holds b (snd (_seg b)) start cnt →
  ∃ b', read NDEBUG true b dest start cnt commit = Some (b', 0, dest) ∧
        read_idx b' = (if commit then write_idx b else read_idx b) ∧
        write_idx b' = write_idx b ∧
        buf b' = buf b ∧ _seg b' = _seg b ∧ size b' = size b ∧
        size_mask b' = size_mask b ∧ reservation b' = reservation b.
Proof.
  intros Hwf H0 H1.
  apply covers_holds in H0, H1; try done.
  exists (if commit then set_read_idx b (write_idx b) else b).
  rewrite read_miss by (by rewrite H0, H1). by destruct commit.
Qed.

End Properties.

(** ** The example states *)

Import Example.

Ltac typed_calls :=
  repeat constructor; simpl; unfold is_guint; lia.

Lemma reachable_by cs b :
  Forall well_typed cs → run false fresh cs = Some b → reachable false b.
Proof.
  intros Hty Hrun.
  exists 10, 2, (λ _, -1), junk, fresh, cs.
  repeat split; try done; lia.
Qed.

Lemma reachable_fresh : reachable false fresh.
Proof. apply (reachable_by []); [typed_calls | reflexivity]. Qed.

Lemma reachable_four : reachable false four.
Proof.
  apply (reachable_by [CallWrite (iota 0 4) 0 4]);
    [typed_calls | reflexivity].
Qed.

Lemma reachable_looped : reachable false looped.
Proof.
  apply (reachable_by [CallWrite (iota 0 4) 0 4;
                       CallWrite (iota 2000 4) 2000 4]);
    [typed_calls | reflexivity].
Qed.

Lemma reachable_doubled : reachable false doubled.
Proof.
  apply (reachable_by [CallWrite (iota 0 10) 0 10; CallWrite (iota 5 3) 5 3]);
    [typed_calls | reflexivity].
Qed.

Lemma reachable_rewound : reachable false rewound.
Proof. apply (reachable_by rewind_calls); [typed_calls | reflexivity]. Qed.

(** ** C1: witness *)

Lemma write_read_roundtrip_witness :
  ∃ b1 dest',
    write false (reset fresh 100) (iota 100 5) 100 5 = Some (b1, 5) ∧
    read false true b1 [0; 0; 0; 0; 0; 0] 100 5 false = Some (b1, 5, dest') ∧
    take (Z.to_nat 5) dest' = iota 100 5.
Proof.
  apply (write_read_roundtrip false fresh 100 (iota 100 5)
           [0; 0; 0; 0; 0; 0] 5).
  - exact reachable_fresh.
  - vm_compute. split; discriminate.
  - reflexivity.
  - vm_compute. discriminate.
Defined.

(** ** C2: counterexample and witness *)

(** C2 as stated fails.  In the reachable state [rewound] the reader went
    back by one position after the writer had filled the ring: the write
    index is 14 slots ahead of the read index, the bound is 13, and a write
    call, which is refused, leaves it so. *)
Lemma reservation_bound_counterexample :
  ¬ (∀ NDEBUG (b b' : RaRingBuffer Z) (cs : list (call Z)),
       reachable NDEBUG b →
       Forall is_write cs → Forall well_typed cs →
       run NDEBUG b cs = Some b' →
       within_reservation b').
Proof.
  intros H.
  specialize (H false rewound rewound [CallWrite (iota 26 5) 26 5]
                reachable_rewound).
  assert (within_reservation rewound) as Hin.
  { apply H; [typed_calls | typed_calls | reflexivity]. }
  vm_compute in Hin. exact (Hin eq_refl).
Qed.

Lemma write_keeps_reservation_witness :
  within_reservation four ∧
  9 = Z.min 20 (write_space four) ∧ 9 ≤ 20 ∧
  write_idx filled = (write_idx four + 9) mod size four ∧
  read_idx filled = read_idx four ∧
  (9 ≤ Z.of_nat (length (iota 4 20)) →
   ∀ j, 0 ≤ j < 9 →
        buf filled !! Z.to_nat ((write_idx four + j) mod size four)
        = iota 4 20 !! Z.to_nat j) ∧
  (∀ j, 0 ≤ j < size four → 9 ≤ ring_distance four (write_idx four) j →
        buf filled !! Z.to_nat j = buf four !! Z.to_nat j) ∧
  within_reservation filled.
Proof.
  apply (write_keeps_reservation false fresh [CallWrite (iota 0 4) 0 4] four
           (iota 4 20) 4 20 filled 9).
  - exact (reachable_wf false fresh reachable_fresh).
  - vm_compute. discriminate.
  - typed_calls.
  - typed_calls.
  - reflexivity.
  - unfold is_guint. lia.
  - reflexivity.
Defined.

(** ** C3: counterexample and witness *)

(** C3 as stated fails.  After positions 0..9 went to segment 0, a write
    at position 5 opens segment 1 on positions 5..7, which segment 0
    holds as well. *)
Lemma exclusivity_counterexample :
  ¬ (∀ NDEBUG (b b' : RaRingBuffer Z) p (cs : list (call Z)),
       reachable NDEBUG b →
       Forall is_write cs → Forall well_typed cs →
       run NDEBUG (reset b p) cs = Some b' →
       exclusive b').
Proof.
  intros H.
  specialize (H false fresh doubled 0
                [CallWrite (iota 0 10) 0 10; CallWrite (iota 5 3) 5 3]
                reachable_fresh).
  assert (exclusive doubled) as Hex.
  { apply H; [typed_calls | typed_calls | reflexivity]. }
  unfold exclusive, active, disjoint_ranges in Hex.
  apply (Hex eq_refl eq_refl 5); vm_compute;
    (split; [discriminate | reflexivity]).
Qed.

Lemma uncached_writes_stay_exclusive_witness : exclusive looped.
Proof.
  apply (uncached_writes_stay_exclusive false fresh 0
           [CallWrite (iota 0 4) 0 4; CallWrite (iota 2000 4) 2000 4]).
  - typed_calls.
  - change (uncached fresh 0 4 ∧ uncached four 2000 4 ∧ True).
    split; [|split; [|exact I]].
    + intros s [-> | ->] Ha; vm_compute in Ha; discriminate.
    + intros s [-> | ->] Ha; [|vm_compute in Ha; discriminate].
      intros x Hx Hs. change (0 ≤ x < 4) in Hs. lia.
  - reflexivity.
Defined.

(** ** C4 and C6: the branch for two active segments *)

Ltac by_compute :=
  vm_compute; repeat split; (discriminate || reflexivity).

(** C4.  The code does not do what the claim says.  In [looped] both
    segments are active and [segment_to_use] selects segment 1, which
    continues at 2004.  A write at 5000 is not refused: the choice that
    [write] makes is segment 0, whatever [segment_to_use] would say, and a
    start that does not continue segment 0 opens segment 1 anew.  With
    assertions the call aborts; without them it returns 3 and segment 1
    has lost the positions 2000..2003. *)
Lemma write_both_active_not_refused :
  active (fst (_seg looped)) ∧ active (snd (_seg looped)) ∧
  segment_to_use false looped (fst (_seg looped)) (snd (_seg looped))
    (write_idx looped) = Some 1 ∧
  last_range_end (snd (_seg looped)) = 2004 ∧
  write false looped (iota 5000 3) 5000 3 = None ∧
  write true looped (iota 5000 3) 5000 3 = Some (clobbered, 3) ∧
  snd (_seg clobbered) = mkSegment 8 5000 3 true ∧
  can_read looped 2000 4 = true ∧ can_read clobbered 2000 4 = false.
Proof. by_compute. Qed.

(** C6.  The code does not do what the claim says.  In [looped] both
    segments are active and [segment_to_use] selects segment 1, which
    continues at 2004; [next_write_pos] returns 4, where segment 0
    continues. *)
Lemma next_write_pos_both_active :
  active (fst (_seg looped)) ∧ active (snd (_seg looped)) ∧
  segment_to_use false looped (fst (_seg looped)) (snd (_seg looped))
    (write_idx looped) = Some 1 ∧
  last_range_end (snd (_seg looped)) = 2004 ∧
  next_write_pos false looped = Some 4 ∧
  next_write_pos true looped = Some 4.
Proof. by_compute. Qed.

(** ** C5: counterexample and witness *)

(** C5 as stated fails.  In the newly constructed buffer the two indices
    are equal: the distance of the claim is 0 and its space is 0, while
    [write_space] is 13 and a write of five elements returns 5. *)
Lemma write_space_counterexample :
  ¬ (∀ NDEBUG (b : RaRingBuffer Z),
       wf b →
       write_space b
       = Z.max 0 (ring_distance b (write_idx b) (read_idx b)
                  - reservation b - 1) ∧
       ∀ src start cnt b' n,
         is_guint cnt →
         write NDEBUG b src start cnt = Some (b', n) →
         (n = 0 ↔ write_space b = 0)).
Proof.
  intros H.
  destruct (H false fresh (reachable_wf false fresh reachable_fresh))
    as [Hs _].
  vm_compute in Hs. discriminate.
Qed.

Lemma write_space_formula_witness :
  write_space fresh = Z.max 0 (free_distance fresh - reservation fresh - 1) ∧
  (4 = 0 ↔ write_space fresh = 0 ∨ 4 = 0) ∧
  (write_space fresh = 0 → four = fresh).
Proof.
  destruct (write_space_formula false fresh
              (reachable_wf false fresh reachable_fresh)) as [Hs Hw].
  split; [exact Hs|].
  apply (Hw (iota 0 4) 0 4 four 4).
  - unfold is_guint. lia.
  - reflexivity.
Defined.

(** ** C7: counterexample and witness *)

(** C7 as stated fails.  With 16 slots, segment 0 at slot 5, segment 1 at
    slot 3 and the write index at 5, the distances of the claim are 0 and
    2, which selects segment 0; the code counts 16 and 2 and returns 1. *)
Lemma segment_to_use_counterexample :
  ¬ (∀ NDEBUG (b : RaRingBuffer Z) s0 s1 w,
       wf b →
       0 ≤ index s0 < size b → 0 ≤ index s1 < size b → 0 ≤ w < size b →
       index s0 ≠ index s1 →
       segment_to_use NDEBUG b s0 s1 w =
       Some (if (w - index s0 + size b) mod size b
                <? (w - index s1 + size b) mod size b
             then 0 else 1)).
Proof.
  intros H.
  specialize (H false fresh (mkSegment 5 0 16 false) (mkSegment 3 100 2 false)
                5 (reachable_wf false fresh reachable_fresh)).
  assert (Some 1 = Some 0) as Hs; [|discriminate].
  apply H; by_compute.
Qed.

Lemma segment_to_use_lap_witness :
  segment_to_use false fresh (mkSegment 5 0 16 false)
    (mkSegment 3 100 2 false) 5
  = Some (if lap_distance fresh 5 5 <? lap_distance fresh 3 5 then 0 else 1).
Proof.
  apply (segment_to_use_lap false fresh (mkSegment 5 0 16 false)
           (mkSegment 3 100 2 false) 5); by_compute.
Defined.

(** ** C9 and C10: witnesses *)

Lemma read_cache_miss_witness :
  (∃ b', read false true looped [0; 0] 1000 2 true = Some (b', 0, [0; 0]) ∧
         read_idx b' = write_idx looped ∧ write_idx b' = write_idx looped ∧
         buf b' = buf looped ∧ _seg b' = _seg looped ∧
         size b' = size looped ∧ size_mask b' = size_mask looped ∧
         reservation b' = reservation looped) ∧
  read false true looped [0; 0] 1000 2 false = Some (looped, 0, [0; 0]).
Proof.
  apply (read_cache_miss false looped [0; 0] 1000 2).
  - exact (reachable_wf false looped reachable_looped).
  - intros [(_ & _ & H) _]. vm_compute in H. exact (H eq_refl).
  - intros [_ (_ & H & _)]. vm_compute in H. exact (H eq_refl).
Defined.

Lemma read_double_cover_witness :
  ∃ b', read false true doubled [0; 0] 5 2 true = Some (b', 0, [0; 0]) ∧
        read_idx b' = write_idx doubled ∧ write_idx b' = write_idx doubled ∧
        buf b' = buf doubled ∧ _seg b' = _seg doubled ∧
        size b' = size doubled ∧ size_mask b' = size_mask doubled ∧
        reservation b' = reservation doubled.
Proof.
  apply (read_double_cover false doubled [0; 0] 5 2 true).
  - exact (reachable_wf false doubled reachable_doubled).
  - by_compute.
  - by_compute.
Defined.

(** * Further properties of the code *)

Section Extras.

Context {T : Type}.

Implicit Types (b : RaRingBuffer T) (s : Segment) (src dest : list T).

Ltac unbind :=
  repeat match goal with
    | |- (?m ≫= _) = Some _ → _ =>
        let E := fresh "E" in destruct m eqn:E; simpl; [|done]
    end.

Ltac seg_simpl :=
  change (1 - 1) with 0; change (1 - 0) with 1;
  rewrite ?seg_get_0, ?seg_get_1, ?seg_set_0, ?seg_set_1; simpl.

(** ** The constructor *)

Lemma power_of_two_loop_spec fuel : ∀ p sz q,
  0 ≤ p → p + Z.of_nat fuel ≤ 32 →
  power_of_two_loop fuel p sz = Some q →
  sz ≤ 2 ^ q ∧ (p < q → 2 ^ (q - 1) < sz).
Proof.
  induction fuel as [|fuel IH]; simpl; intros p sz q Hp Hf; [done|].
  rewrite Z.shiftl_1_l.
  assert (0 < 2 ^ p < 2 ^ 32).
  { split; [lia|]. apply Z.pow_lt_mono_r; lia. }
  rewrite to_guint_small by lia.
  destruct (Z.ltb_spec (2 ^ p) sz) as [Hlt|Hge].
  - intros Hq. pose proof (power_of_two_loop_range _ _ _ _ Hq).
    apply IH in Hq as [H1 H2]; [|lia..]. split; [done|]. intros _.
    destruct (Z.eq_dec q (p + 1)) as [->|]; [|apply H2; lia].
    by replace (p + 1 - 1) with p by lia.
  - intros [= <-]. split; [done|lia].
Qed.

Lemma power_of_two_loop_returns fuel : ∀ p sz,
  0 ≤ p → p + Z.of_nat fuel ≤ 32 → (0 < fuel)%nat →
  sz ≤ 2 ^ (p + Z.of_nat fuel - 1) →
  is_Some (power_of_two_loop fuel p sz).
Proof.
  induction fuel as [|fuel IH]; simpl; intros p sz Hp Hf Hfuel Hsz; [lia|].
  rewrite Z.shiftl_1_l.
  assert (0 < 2 ^ p < 2 ^ 32).
  { split; [lia|]. apply Z.pow_lt_mono_r; lia. }
  rewrite to_guint_small by lia.
  destruct (Z.ltb_spec (2 ^ p) sz) as [Hlt|Hge]; [|done].
  destruct fuel as [|fuel'].
  - replace (p + Z.of_nat 1 - 1) with p in Hsz by lia. lia.
  - apply IH; [lia..|].
    by replace (p + 1 + Z.of_nat (S fuel') - 1)
      with (p + Z.of_nat (S (S fuel')) - 1) by lia.
Qed.

(** X1.  The constructor rounds up.  When the sum of the requested
    capacity and the reservation is at most 2^31, the buffer is built,
    its size is the least power of two that is at least 2 and at least
    that sum, both indices are 0, both segments are unused, and the
    writer has [size - res - 1] slots, at least [sz - 1]. *)
Theorem constructor_rounds_up sz res (mem : nat → T) junk :
  is_guint sz → is_guint res → sz + res ≤ 2 ^ 31 →
  ∃ b, new_RaRingBuffer sz res mem junk = Some b ∧
       wf b ∧ reservation b = res ∧
       sz + res ≤ size b ∧ (2 < size b → size b < 2 * (sz + res)) ∧
       write_idx b = 0 ∧ read_idx b = 0 ∧
       write_start_offset (fst (_seg b)) = 0 ∧
       write_start_offset (snd (_seg b)) = 0 ∧
       write_space b = Z.max 0 (size b - res - 1) ∧
       sz - 1 ≤ write_space b.
Proof.
  intros [Hsz0 _] [Hres0 Hres1] Hsum.
  assert (to_guint (sz + res) = sz + res) as Ht by (apply to_guint_small; lia).
  destruct (power_of_two_loop_returns 31 1 (sz + res)) as [p Hp];
    [lia | lia | lia | simpl; lia |].
  pose proof (power_of_two_loop_range _ _ _ _ Hp) as Hr.
  destruct (power_of_two_loop_spec 31 1 (sz + res) p) as [Hle Hgt];
    [lia | simpl; lia | done |].
  assert (new_RaRingBuffer sz res mem junk
          = Some (reset (mkRaRingBuffer (map mem (seq 0 (Z.to_nat
                     (to_guint (Z.shiftl 1 p))))) res
                     (to_guint (Z.shiftl 1 p))
                     (to_guint (to_guint (Z.shiftl 1 p) - 1)) junk 0 0) 0))
    as Hnew.
  { unfold new_RaRingBuffer. rewrite Ht, Hp. reflexivity. }
  eexists. split; [exact Hnew|].
  pose proof (wf_new _ _ _ _ _ (conj Hres0 Hres1) Hnew) as Hwf.
  assert (to_guint (Z.shiftl 1 p) = 2 ^ p) as Hsize.
  { rewrite Z.shiftl_1_l. apply to_guint_small. split; [lia|].
    apply Z.pow_lt_mono_r; lia. }
  split; [done|]. rewrite write_space_eq by done.
  unfold free_distance. simpl. rewrite Hsize.
  repeat split; try done; try lia.
  intros H2. destruct (Z.eq_dec p 1) as [->|]; [simpl in H2; lia|].
  specialize (Hgt ltac:(lia)).
  replace (2 ^ p) with (2 * 2 ^ (p - 1)); [lia|].
  rewrite <- Z.pow_succ_r by lia. f_equal. lia.
Qed.

(** X2.  A buffer whose reservation is not below [size - 1] never takes
    an element: every write call that returns, returns 0 and changes
    nothing.  The constructor builds such a buffer when the sum of its
    arguments wraps around, or when the capacity asked for is 0 or 1 and
    the sum is a power of two. *)
Theorem write_refused_by_reservation NDEBUG b src start cnt b' n :
  wf b → size b - 1 ≤ reservation b →
  write NDEBUG b src start cnt = Some (b', n) →
  write_space b = 0 ∧ n = 0 ∧ b' = b.
Proof.
  intros Hwf Hres Hw.
  assert (write_space b = 0) as H0.
  { rewrite write_space_eq by done. unfold free_distance, ring_distance.
    pose proof Hwf as [_ Hs _ _ _ _ _].
    pose proof (Z.mod_pos_bound (read_idx b - write_idx b) (size b)).
    destruct (_ =? _); lia. }
  apply write_inv in Hw as [(_ & -> & ->) | (Hne & _)]; [done|lia].
Qed.

(** ** The space to read *)

Lemma read_space_eq b :
  wf b → read_space b = ring_distance b (read_idx b) (write_idx b).
Proof.
  intros Hwf. pose proof Hwf as [_ Hs _ Hw Hr _ _].
  unfold read_space. rewrite wf_land by done.
  rewrite to_guint_plus_l. rewrite ring_distance_eq by lia.
  destruct (Z.gtb_spec (write_idx b) (read_idx b)),
    (Z.leb_spec (read_idx b) (write_idx b)); try lia.
  - apply to_guint_small. lia.
  - rewrite to_guint_small by lia.
    replace (write_idx b - read_idx b + size b) with (size b) by lia.
    rewrite Z.mod_same by lia. lia.
  - rewrite to_guint_small by lia. apply Z.mod_small. lia.
Qed.

Lemma space_split b :
  wf b →
  read_space b = ring_distance b (read_idx b) (write_idx b) ∧
  0 ≤ read_space b < size b ∧
  read_space b + free_distance b = size b ∧
  write_space b = Z.max 0 (size b - 1 - reservation b - read_space b).
Proof.
  intros Hwf. pose proof Hwf as [_ Hs _ Hw Hr _ _].
  rewrite write_space_eq, read_space_eq by done.
  unfold free_distance. rewrite !ring_distance_eq by lia.
  destruct (Z.eqb_spec (write_idx b) (read_idx b)),
    (Z.leb_spec (read_idx b) (write_idx b)),
    (Z.leb_spec (write_idx b) (read_idx b)); lia.
Qed.

(** X3.  The two indices split the ring.  [read_space] is the forward
    distance from the read index to the write index, 0 when they are
    equal; with the distance that [write_space] starts from it adds up to
    [size]; so the writer has the [size - 1 - reservation] slots of an
    empty ring less what is there to read. *)
Theorem read_space_write_space b :
  wf b →
  read_space b = ring_distance b (read_idx b) (write_idx b) ∧
  0 ≤ read_space b < size b ∧
  read_space b + free_distance b = size b ∧
  write_space b = Z.max 0 (size b - 1 - reservation b - read_space b).
Proof. apply space_split. Qed.

(** X4.  [increment_read_idx] moves the read index forward by [cnt], but
    not past the write index: the space to read shrinks by the smaller
    of [cnt] and what there was to read, and a count that is not below
    what there was to read does what [read_flush] does. *)
Theorem increment_read_idx_clamps b cnt :
  wf b → is_guint cnt →
  read_idx (increment_read_idx b cnt)
  = (read_idx b + Z.min cnt (read_space b)) mod size b ∧
  read_space (increment_read_idx b cnt)
  = read_space b - Z.min cnt (read_space b) ∧
  (read_space b ≤ cnt → increment_read_idx b cnt = read_flush b).
Proof.
  intros Hwf [Hc0 Hc1].
  pose proof (wf_increment_read_idx b cnt Hwf) as Hwf'.
  pose proof Hwf as [_ Hs _ Hw Hr _ _].
  destruct (space_split b Hwf) as (Hrs & Hrange & _ & _).
  assert (read_idx (increment_read_idx b cnt)
          = (read_idx b + Z.min cnt (read_space b)) mod size b) as Hidx.
  { unfold increment_read_idx. simpl. rewrite wf_land by done.
    rewrite to_guint_small by lia. done. }
  split; [done|].
  rewrite (read_space_eq (increment_read_idx b cnt)) by done.
  rewrite Hidx. change (write_idx (increment_read_idx b cnt))
    with (write_idx b).
  change (ring_distance (increment_read_idx b cnt)) with (ring_distance b).
  unfold increment_read_idx, read_flush.
  rewrite wf_land by done. rewrite to_guint_small by lia.
  set (m := Z.min cnt (read_space b)) in *.
  assert (0 ≤ m ≤ read_space b) as Hm by lia.
  assert (read_space b ≤ cnt → m = read_space b) as Hall by lia.
  clearbody m.
  assert (read_space b = if read_idx b <=? write_idx b
                         then write_idx b - read_idx b
                         else write_idx b - read_idx b + size b) as Hd.
  { rewrite Hrs. apply ring_distance_eq; lia. }
  split.
  - unfold ring_distance. rewrite Zminus_mod_idemp_r.
    destruct (Z.leb_spec (read_idx b) (write_idx b)).
    + rewrite Z.mod_small by lia. lia.
    + replace (write_idx b - (read_idx b + m))
        with (write_idx b - read_idx b + size b - m + -1 * size b) by lia.
      rewrite Z_mod_plus_full. rewrite Z.mod_small by lia. lia.
  - intros Hc. f_equal. rewrite (Hall Hc).
    destruct (Z.leb_spec (read_idx b) (write_idx b)).
    + rewrite Hd. replace (read_idx b + (write_idx b - read_idx b))
        with (write_idx b) by lia.
      apply Z.mod_small. lia.
    + rewrite Hd. replace (read_idx b + (write_idx b - read_idx b + size b))
        with (write_idx b + 1 * size b) by lia.
      rewrite Z_mod_plus_full. apply Z.mod_small. lia.
Qed.

(** X5.  After [read_flush] there is nothing to read, and the writer has
    all the slots that the reservation leaves. *)
Theorem read_flush_empties b :
  wf b →
  read_space (read_flush b) = 0 ∧
  write_space (read_flush b) = Z.max 0 (size b - 1 - reservation b).
Proof.
  intros Hwf. pose proof (wf_read_flush b Hwf) as Hwf'.
  destruct (space_split _ Hwf') as (Hrs & _ & _ & Hws).
  assert (read_space (read_flush b) = 0) as H0.
  { rewrite Hrs. unfold ring_distance. simpl. by rewrite Z.sub_diag. }
  split; [done|]. rewrite Hws, H0. simpl. f_equal. lia.
Qed.

(** ** What the copies put where *)

Lemma copy_out_length b dest i n :
  length (copy_out b dest i n).1 = length dest.
Proof.
  unfold copy_out.
  destruct (_ >? _); simpl; [destruct (negb _); simpl|];
    by rewrite ?length_memcpy.
Qed.

Lemma copy_out_idx_eq b dest i n :
  wf b → 0 ≤ i < size b → 0 ≤ n < size b →
  (copy_out b dest i n).2 = (i + n) mod size b.
Proof.
  intros Hwf Hi Hn. pose proof Hwf as [_ Hs _ _ _ _ _].
  unfold copy_out.
  rewrite (to_guint_small (i + n)) by lia.
  destruct (Z.gtb_spec (i + n) (size b)); simpl;
    rewrite ?wf_land by done.
  - rewrite (mod_lap (size b)) by lia.
    destruct (Z.eqb_spec (i + n - size b) 0); [lia|done].
  - by rewrite to_guint_small by lia.
Qed.

(** The copy of [read] puts the content of the [j]-th slot after the slot
    [i] into the [j]-th element of [dest], for [j] below [n], and leaves
    the rest of [dest] as it is. *)
Lemma copy_out_lookup b dest i n j :
  wf b → 0 ≤ i < size b → 0 ≤ n < size b → n ≤ Z.of_nat (length dest) →
  0 ≤ j →
  (copy_out b dest i n).1 !! Z.to_nat j
  = if j <? n then buf b !! Z.to_nat ((i + j) mod size b)
    else dest !! Z.to_nat j.
Proof.
  intros Hwf Hi Hn Hdest Hj. pose proof Hwf as [_ Hs _ _ _ _ Hbuf].
  unfold copy_out.
  rewrite (to_guint_small (i + n)) by lia.
  destruct (Z.gtb_spec (i + n) (size b)) as [Hwrap|Hflat]; simpl.
  - rewrite wf_land by done. rewrite (mod_lap (size b) (_ + n)) by lia.
    rewrite (to_guint_small (size b - i)) by lia.
    destruct (Z.eqb_spec (i + n - size b) 0) as [|_]; [lia|].
    simpl. unfold memcpy. change (Z.to_nat 0) with 0%nat. rewrite drop_0.
    assert (length (take (Z.to_nat (size b - i)) (drop (Z.to_nat i) (buf b)))
            = Z.to_nat (size b - i)) as Hl1
      by (rewrite length_take, length_drop; lia).
    assert (length (take (Z.to_nat (i + n - size b)) (buf b))
            = Z.to_nat (i + n - size b)) as Hl2
      by (rewrite length_take; lia).
    destruct (Z.ltb_spec j n).
    + destruct (Z.lt_ge_cases (i + j) (size b)).
      * rewrite Z.mod_small by lia.
        rewrite list_lookup_inserts_lt by lia.
        rewrite list_lookup_inserts by lia.
        rewrite lookup_take_lt by lia. rewrite lookup_drop. f_equal. lia.
      * rewrite mod_lap by lia.
        rewrite list_lookup_inserts by (rewrite ?length_inserts; lia).
        rewrite lookup_take_lt by lia. f_equal. lia.
    + rewrite list_lookup_inserts_ge by lia.
      apply list_lookup_inserts_ge. lia.
  - unfold memcpy. change (Z.to_nat 0) with 0%nat.
    assert (length (take (Z.to_nat n) (drop (Z.to_nat i) (buf b)))
            = Z.to_nat n) as Hl
      by (rewrite length_take, length_drop; lia).
    destruct (Z.ltb_spec j n).
    + rewrite Z.mod_small by lia.
      rewrite list_lookup_inserts by lia.
      rewrite lookup_take_lt by lia. rewrite lookup_drop. f_equal. lia.
    + apply list_lookup_inserts_ge. lia.
Qed.

(** ** The shape of a read *)

Lemma set_seg_same b : set_seg b (_seg b) = b.
Proof. by destruct b. Qed.

(** Only one of the two cuts of the commit can apply, and it applies to
    the segment that was read from when [segment_to_use] names the other
    one. *)
Lemma invalidate_eq NDEBUG b segment start cnt idx :
  segment = 1 ∨ segment = 2 →
  invalidate NDEBUG b segment start cnt idx =
  if negb (write_start_offset (fst (_seg b)) =? 0)
     && negb (write_start_offset (snd (_seg b)) =? 0)
  then u ← segment_to_use NDEBUG b (fst (_seg b)) (snd (_seg b))
             (write_idx b);
       if (segment =? 2) && (u =? 0)
       then shrink_segment NDEBUG b 1 start cnt idx
       else if (segment =? 1) && (u =? 1)
            then shrink_segment NDEBUG b 0 start cnt idx
            else Some b
  else Some b.
Proof.
  intros Hseg. unfold invalidate. seg_simpl.
  destruct (_ && _); [|done].
  assert (∀ u, segment_to_use NDEBUG b (fst (_seg b)) (snd (_seg b))
                 (write_idx b) = Some u → u = 0 ∨ u = 1) as Hu.
  { intros u. unfold segment_to_use.
    destruct (assert _ _); simpl; [|done].
    destruct (_ <? _); intros [= <-]; auto. }
  destruct (segment_to_use _ _ _ _ _) as [u|]; simpl; [|done].
  destruct (Hu u eq_refl) as [-> | ->], Hseg as [-> | ->]; simpl; try done.
  by destruct (shrink_segment _ _ _ _ _ _).
Qed.

Lemma shrink_segment_inv NDEBUG b i start cnt idx b' :
  shrink_segment NDEBUG b i start cnt idx = Some b' →
  b' = set_seg b
         (seg_set (_seg b) i
            (mkSegment idx (start + cnt)
               (last_range_end (seg_get (_seg b) i) - (start + cnt))
               (write_reversed (seg_get (_seg b) i)))).
Proof.
  unfold shrink_segment. unbind. intros [= <-]. f_equal. f_equal.
  unfold set_index, set_write_start_offset, set_write_start_pos,
    last_range_end. simpl. f_equal. lia.
Qed.

Lemma invalidate_inv NDEBUG b segment start cnt idx b' :
  segment = 1 ∨ segment = 2 →
  invalidate NDEBUG b segment start cnt idx = Some b' →
  ∃ ss, b' = set_seg b ss ∧
        (write_start_offset (fst (_seg b)) = 0
         ∨ write_start_offset (snd (_seg b)) = 0 → ss = _seg b).
Proof.
  intros Hseg. rewrite invalidate_eq by done.
  destruct (Z.eqb_spec (write_start_offset (fst (_seg b))) 0) as [H0|H0];
    simpl.
  { intros [= <-]. exists (_seg b). by rewrite set_seg_same. }
  destruct (Z.eqb_spec (write_start_offset (snd (_seg b))) 0) as [H1|H1];
    simpl.
  { intros [= <-]. exists (_seg b). by rewrite set_seg_same. }
  destruct (segment_to_use _ _ _ _ _) as [u|]; simpl; [|done].
  destruct ((segment =? 2) && (u =? 0)).
  { intros E. apply shrink_segment_inv in E as ->.
    eexists. split; [reflexivity|]. intros [|]; done. }
  destruct ((segment =? 1) && (u =? 1)).
  { intros E. apply shrink_segment_inv in E as ->.
    eexists. split; [reflexivity|]. intros [|]; done. }
  intros [= <-]. exists (_seg b). rewrite set_seg_same.
  split; [done|]. intros [|]; done.
Qed.

(** The outcome of [read] when the lock was taken, by the two range
    tests. *)
Lemma read_eq NDEBUG b dest start cnt commit :
  read NDEBUG true b dest start cnt commit =
  if eqb (covers b (fst (_seg b)) start cnt) (covers b (snd (_seg b)) start cnt)
  then Some (if commit then set_read_idx b (write_idx b) else b, 0, dest)
  else
    let i := if covers b (fst (_seg b)) start cnt then 0 else 1 in
    let co := copy_out b dest (read_slot b (seg_get (_seg b) i) start) cnt in
    if commit
    then b1 ← invalidate NDEBUG b (i + 1) start cnt co.2;
         Some (set_read_idx b1 co.2, cnt, co.1)
    else Some (b, cnt, co.1).
Proof.
  unfold read, find_segment. seg_simpl.
  destruct (covers b (fst (_seg b)) start cnt),
    (covers b (snd (_seg b)) start cnt); simpl; try done;
    seg_simpl; by destruct (copy_out _ _ _ _), commit.
Qed.

Lemma covers_bounds b s start cnt :
  wf b → 0 ≤ cnt → covers b s start cnt = true →
  cnt < size b ∧ cnt ≤ write_start_offset s ∧
  write_start_pos s ≤ start ∧ start + cnt ≤ last_range_end s.
Proof.
  intros Hwf Hc Hcov. apply covers_holds in Hcov as (Ha & Hf & Hl); [|done].
  unfold active, first_range_start, last_range_end in *. lia.
Qed.

Lemma read_slot_range b s start :
  wf b → start ≤ last_range_end s → 0 ≤ read_slot b s start < size b.
Proof.
  intros Hwf Hl. rewrite read_slot_eq by done.
  apply Z.mod_pos_bound. destruct Hwf. lia.
Qed.

(** X11.  What a read leaves alone.  A read never changes the storage,
    the write index, the size or the reservation; without commit it
    changes nothing at all.  It returns 0 or [cnt], keeps the length of
    [dest], and changes no element of [dest] from the returned count
    on. *)
Theorem read_frame NDEBUG lm b dest start cnt commit b' n d :
  wf b → 0 ≤ cnt ≤ Z.of_nat (length dest) →
  read NDEBUG lm b dest start cnt commit = Some (b', n, d) →
  buf b' = buf b ∧ write_idx b' = write_idx b ∧
  size b' = size b ∧ reservation b' = reservation b ∧
  (commit = false → b' = b) ∧
  (n = 0 ∨ n = cnt) ∧
  length d = length dest ∧
  ∀ j, n ≤ j → d !! Z.to_nat j = dest !! Z.to_nat j.
Proof.
  intros Hwf Hc.
  destruct lm; [|intros [= <- <- <-]; repeat split; auto].
  rewrite read_eq.
  destruct (eqb _ _) eqn:Heq.
  { intros [= <- <- <-]. destruct commit; repeat split; auto; done. }
  set (i := if covers b (fst (_seg b)) start cnt then 0 else 1).
  assert (covers b (seg_get (_seg b) i) start cnt = true) as Hcov.
  { subst i. destruct (covers b (fst (_seg b)) start cnt) eqn:E0;
      [done|]. seg_simpl.
    destruct (covers b (snd (_seg b)) start cnt); done. }
  destruct (covers_bounds _ _ _ _ Hwf (proj1 Hc) Hcov) as (H1 & H2 & H3 & H4).
  pose proof (read_slot_range b (seg_get (_seg b) i) start Hwf
                ltac:(lia)) as Hslot.
  assert (∀ j, cnt ≤ j →
            (copy_out b dest (read_slot b (seg_get (_seg b) i) start) cnt).1
              !! Z.to_nat j = dest !! Z.to_nat j) as Hrest.
  { intros j Hj. rewrite copy_out_lookup by (done || lia).
    destruct (Z.ltb_spec j cnt); [lia|done]. }
  cbv zeta. destruct commit.
  - destruct (invalidate _ _ _ _ _ _) as [b1|] eqn:Hi; simpl; [|done].
    apply invalidate_inv in Hi as (ss & -> & _);
      [|subst i; by destruct (covers b (fst (_seg b)) start cnt); auto].
    intros [= <- <- <-]. simpl.
    repeat split; auto using copy_out_length; done.
  - intros [= <- <- <-]. repeat split; auto using copy_out_length.
Qed.

(** X7.  A read does not invalidate what it reads.  When at most one
    segment is in use, a read, committing or not, changes neither the
    storage nor the segments: every range can be read afterwards exactly
    as before. *)
Theorem read_keeps_cache NDEBUG lm b dest start cnt commit b' n d :
  write_start_offset (fst (_seg b)) = 0
  ∨ write_start_offset (snd (_seg b)) = 0 →
  read NDEBUG lm b dest start cnt commit = Some (b', n, d) →
  _seg b' = _seg b ∧ buf b' = buf b ∧
  ∀ dest2 start2 cnt2,
    can_read b' start2 cnt2 = can_read b start2 cnt2 ∧
    (λ r, (r.1.2, r.2)) <$> read NDEBUG true b' dest2 start2 cnt2 false
    = (λ r, (r.1.2, r.2)) <$> read NDEBUG true b dest2 start2 cnt2 false.
Proof.
  intros Hone Hread.
  assert (∃ x, b' = set_read_idx b x) as [x ->].
  { destruct lm.
    - rewrite read_eq in Hread. destruct (eqb _ _).
      + injection Hread as <- _ _. destruct commit; eauto.
        exists (read_idx b). by destruct b.
      + cbv zeta in Hread. destruct commit.
        * destruct (invalidate _ _ _ _ _ _) as [b1|] eqn:Hi;
            simpl in Hread; [|done].
          apply invalidate_inv in Hi as (ss & -> & Hss);
            [|by destruct (covers b (fst (_seg b)) start cnt); auto].
          rewrite (Hss Hone), set_seg_same in Hread.
          injection Hread as <- _ _. eauto.
        * injection Hread as <- _ _. exists (read_idx b). by destruct b.
    - injection Hread as <- _ _. exists (read_idx b). by destruct b. }
  split; [done|]. split; [done|]. intros dest2 start2 cnt2.
  split; [done|]. rewrite !read_eq.
  change (covers (set_read_idx b x)) with (covers b).
  change (_seg (set_read_idx b x)) with (_seg b).
  destruct (eqb _ _); [done|]. reflexivity.
Qed.

(** X9.  [can_read] and [read].  The count of [can_read] is an
    [int32_t] and the count of [read] a [guint]: for a count that both
    types hold, [can_read] is true exactly when at least one segment in
    use holds the range.  A read that took the lock returns [cnt] when
    [can_read] is true and the two segments do not both hold the range;
    it returns 0 and leaves [dest] alone when [can_read] is false. *)
Theorem can_read_and_read NDEBUG b dest start cnt commit b' n d :
  wf b → 0 ≤ cnt < 2 ^ 31 →
  read NDEBUG true b dest start cnt commit = Some (b', n, d) →
  (can_read b start cnt = true ↔
   holds b (fst (_seg b)) start cnt ∨ holds b (snd (_seg b)) start cnt) ∧
  (can_read b start cnt = true →
   ¬ (holds b (fst (_seg b)) start cnt ∧ holds b (snd (_seg b)) start cnt) →
   n = cnt) ∧
  (can_read b start cnt = false → n = 0 ∧ d = dest).
Proof.
  intros Hwf Hcnt. rewrite read_eq.
  rewrite <- !covers_holds by done.
  unfold can_read. rewrite to_int_small by lia. cbv zeta. seg_simpl.
  destruct (covers b (fst (_seg b)) start cnt),
    (covers b (snd (_seg b)) start cnt); simpl.
  - intros [= <- <- <-]. split; [tauto|]. split; [|done].
    intros _ H. exfalso. by apply H.
  - destruct commit; [unbind|]; intros [= <- <- <-];
      (split; [tauto|]); (split; [done|done]).
  - destruct commit; [unbind|]; intros [= <- <- <-];
      (split; [tauto|]); (split; [done|done]).
  - intros [= <- <- <-]. split; [|done].
    split; [done|]. intros [|]; done.
Qed.

(** ** Which segment a write goes to *)

(** The outcome of [write], by the states of the two segments: with
    segment 0 unused, the write continues segment 1 when it is in use and
    [start] is its end, and opens segment 0 otherwise; with segment 0 in
    use, the write continues it when [start] is its end, and opens
    segment 1 otherwise, which the assertion allows only when segment 1
    is unused. *)
Lemma write_eq NDEBUG b src start cnt :
  write NDEBUG b src start cnt =
  let n := if cnt >? write_space b then write_space b else cnt in
  let finish (i : Z) (x : Segment) :=
    if write_space b =? 0 then Some (b, 0)
    else Some (set_write_idx
                 (set_seg (set_buf b (copy_in b src n).1)
                    (seg_set (_seg b) i
                       (set_write_start_offset x (write_start_offset x + n))))
                 (copy_in b src n).2, n) in
  let opened (i : Z) :=
    mkSegment (write_idx b) start 0 (write_reversed (seg_get (_seg b) i)) in
  if write_start_offset (fst (_seg b)) =? 0 then
    if (write_start_offset (snd (_seg b)) =? 0)
       || negb (start =? last_range_end (snd (_seg b)))
    then finish 0 (opened 0)
    else finish 1 (snd (_seg b))
  else if start =? last_range_end (fst (_seg b)) then finish 0 (fst (_seg b))
  else _ ← assert NDEBUG (write_start_offset (snd (_seg b)) =? 0);
       finish 1 (opened 1).
Proof.
  unfold write, last_range_end. rewrite choose_segment_eq. cbv zeta.
  unfold start_new_segment.
  destruct (Z.eqb_spec (write_start_offset (fst (_seg b))) 0) as [H0|H0];
    [destruct (Z.eqb_spec (write_start_offset (snd (_seg b))) 0) as [H1|H1]|];
    simpl; seg_simpl.
  - rewrite H0, Z.add_0_r, Z.eqb_refl. simpl.
    destruct (write_space b =? 0); [done|]. by destruct (copy_in _ _ _).
  - destruct (Z.eqb_spec start (write_start_pos (snd (_seg b))
                                + write_start_offset (snd (_seg b)))); simpl.
    + destruct (write_space b =? 0); [done|]. by destruct (copy_in _ _ _).
    + rewrite H0. simpl. rewrite assert_true. simpl.
      destruct (write_space b =? 0); [done|]. by destruct (copy_in _ _ _).
  - destruct (Z.eqb_spec start (write_start_pos (fst (_seg b))
                                + write_start_offset (fst (_seg b)))); simpl.
    + destruct (write_space b =? 0); [done|]. by destruct (copy_in _ _ _).
    + destruct (assert NDEBUG _) as [[]|]; simpl; [|done].
      destruct (write_space b =? 0); [done|]. by destruct (copy_in _ _ _).
Qed.

(** The count that a write returns is between 0 and what was asked for,
    and below [size]. *)
Lemma write_count_range b cnt :
  wf b → 0 ≤ cnt →
  0 ≤ (if cnt >? write_space b then write_space b else cnt) ≤ cnt ∧
  (if cnt >? write_space b then write_space b else cnt) < size b.
Proof.
  intros Hwf Hc. pose proof (write_space_range b Hwf).
  destruct (Z.gtb_spec cnt (write_space b)); lia.
Qed.

(** ** The descriptors of the segments *)

Lemma segments_ok_write NDEBUG b src start cnt b' n :
  wf b → segments_ok b → is_guint cnt →
  write NDEBUG b src start cnt = Some (b', n) → segments_ok b'.
Proof.
  intros Hwf Hok [Hc _]. rewrite write_eq. cbv zeta.
  destruct (write_count_range b cnt Hwf Hc) as [Hn _].
  set (m := if cnt >? write_space b then write_space b else cnt) in *.
  clearbody m.
  pose proof (Hok _ (or_introl eq_refl)) as [Hp0 Hi0].
  pose proof (Hok _ (or_intror eq_refl)) as [Hp1 Hi1].
  pose proof Hwf as [_ _ _ Hw _ _ _].
  assert (∀ i x,
    (i = 0 ∨ i = 1) →
    0 ≤ write_start_offset x →
    (write_start_offset x + m ≠ 0 → 0 ≤ index x < size b) →
    (if write_space b =? 0 then Some (b, 0)
     else Some (set_write_idx
                  (set_seg (set_buf b (copy_in b src m).1)
                     (seg_set (_seg b) i
                        (set_write_start_offset x (write_start_offset x + m))))
                  (copy_in b src m).2, m)) = Some (b', n) →
    segments_ok b') as Hfin.
  { intros i x Hi Hx0 Hxi. destruct (write_space b =? 0).
    - by intros [= <- _].
    - intros [= <- _]. intros s. simpl.
      destruct Hi as [-> | ->]; seg_simpl; intros [-> | ->]; simpl;
        auto; split; lia || done. }
  destruct (Z.eqb_spec (write_start_offset (fst (_seg b))) 0) as [H0|H0].
  - destruct (Z.eqb_spec (write_start_offset (snd (_seg b))) 0) as [H1|H1];
      simpl; [|destruct (negb _)].
    + apply Hfin; simpl; auto; lia.
    + apply Hfin; simpl; auto; lia.
    + apply Hfin; auto.
  - destruct (start =? _).
    + apply Hfin; auto.
    + destruct (assert _ _); simpl; [|done]. apply Hfin; simpl; auto; lia.
Qed.

Lemma hit_segment b start cnt :
  eqb (covers b (fst (_seg b)) start cnt) (covers b (snd (_seg b)) start cnt)
  = false →
  let i := if covers b (fst (_seg b)) start cnt then 0 else 1 in
  (i = 0 ∨ i = 1) ∧
  covers b (seg_get (_seg b) i) start cnt = true ∧
  covers b (seg_get (_seg b) (1 - i)) start cnt = false.
Proof.
  destruct (covers b (fst (_seg b)) start cnt) eqn:E0,
    (covers b (snd (_seg b)) start cnt) eqn:E1; simpl; try done;
    intros _; seg_simpl; auto.
Qed.

Lemma segments_ok_read NDEBUG lm b dest start cnt commit b' n d :
  wf b → segments_ok b → 0 ≤ cnt →
  read NDEBUG lm b dest start cnt commit = Some (b', n, d) → segments_ok b'.
Proof.
  intros Hwf Hok Hc. destruct lm; [|by intros [= <- _ _]].
  rewrite read_eq. destruct (eqb _ _) eqn:Heq.
  { intros [= <- _ _]. by destruct commit. }
  destruct (hit_segment _ _ _ Heq) as (Hi & Hcov & _).
  set (i := if covers b (fst (_seg b)) start cnt then 0 else 1) in *.
  destruct (covers_bounds _ _ _ _ Hwf Hc Hcov) as (H1 & H2 & H3 & H4).
  pose proof (read_slot_range b (seg_get (_seg b) i) start Hwf
                ltac:(lia)) as Hslot.
  pose proof (copy_out_idx b dest (read_slot b (seg_get (_seg b) i) start)
                cnt Hwf) as Hidx.
  cbv zeta. destruct commit; [|by intros [= <- _ _]].
  rewrite invalidate_eq by (destruct Hi as [-> | ->]; auto).
  set (idx := (copy_out b dest (read_slot b (seg_get (_seg b) i) start) cnt).2)
    in *.
  assert (∀ b1, shrink_segment NDEBUG b i start cnt idx = Some b1 →
                segments_ok (set_read_idx b1 idx)) as Hshrink.
  { intros b1 E. apply shrink_segment_inv in E as ->. intros s. simpl.
    unfold last_range_end in *. clearbody idx. clearbody i.
    destruct Hi as [-> | ->]; rewrite ?seg_get_0, ?seg_get_1 in *;
      seg_simpl; intros [-> | ->]; simpl;
      (by apply Hok; auto) || (split; [lia|done]). }
  destruct (_ && _); [|by intros [= <- _ _]].
  destruct (segment_to_use _ _ _ _ _) as [u|]; simpl; [|done].
  clearbody idx. clearbody i.
  destruct Hi as [-> | ->]; simpl.
  - destruct (u =? 1); simpl.
    + destruct (shrink_segment _ _ _ _ _ _) eqn:E; simpl; [|done].
      intros [= <- _ _]. by apply Hshrink.
    + by intros [= <- _ _].
  - destruct (u =? 0); simpl.
    + destruct (shrink_segment _ _ _ _ _ _) eqn:E; simpl; [|done].
      intros [= <- _ _]. by apply Hshrink.
    + by intros [= <- _ _].
Qed.

Lemma segments_ok_step NDEBUG b c b' :
  wf b → segments_ok b → well_typed c →
  step NDEBUG b c = Some b' → segments_ok b'.
Proof.
  intros Hwf Hok Hty.
  destruct c as [start|src start cnt|lm dest start cnt commit|cnt|]; simpl.
  - intros [= <-]. intros s [-> | ->]; simpl; split; done.
  - destruct (write _ _ _ _ _) as [[b1 n]|] eqn:Hw; simpl; [|done].
    intros [= <-]. eapply segments_ok_write; [done..| |done]. apply Hty.
  - destruct (read _ _ _ _ _ _ _) as [[[b1 n] d]|] eqn:Hr; simpl; [|done].
    intros [= <-]. eapply segments_ok_read; [done..| |done].
    destruct Hty as [[] _]. done.
  - by intros [= <-].
  - by intros [= <-].
Qed.

(** X12.  In every reachable state no segment has a negative offset, and
    a segment in use starts at a slot of the storage: "in use" is the same
    for the test [!= 0] of [write] and the test [> 0] of [read]. *)
Theorem reachable_segments_ok NDEBUG b :
  reachable NDEBUG b →
  segments_ok b ∧
  ∀ s, s = fst (_seg b) ∨ s = snd (_seg b) →
       (write_start_offset s ≠ 0 ↔ active s).
Proof.
  intros (sz & res & mem & junk & b0 & cs & _ & Hres & Hnew & Hty & Hrun).
  assert (segments_ok b) as Hok.
  { pose proof (wf_new _ _ _ _ _ Hres Hnew) as Hwf0.
    assert (segments_ok b0) as Hok0.
    { revert Hnew. unfold new_RaRingBuffer.
      destruct (power_of_two_loop _ _ _); simpl; [|done].
      intros [= <-]. intros s [-> | ->]; simpl; split; done. }
    clear Hnew. revert b0 Hwf0 Hok0 Hrun.
    induction Hty as [|c cs Hc Hcs IH]; simpl; intros b0 Hwf0 Hok0.
    - by intros [= <-].
    - destruct (step NDEBUG b0 c) as [b1|] eqn:Hs; simpl; [|done].
      apply IH; [by eapply wf_step | by eapply segments_ok_step]. }
  split; [done|]. intros s Hs. destruct (Hok s Hs) as [H0 _].
  unfold active. lia.
Qed.

(** ** The assertions of a committing read *)

Lemma to_int_eq x :
  0 ≤ x < 2 ^ 32 → to_int x = if x <? 2 ^ 31 then x else x - 2 ^ 32.
Proof.
  intros Hx. unfold to_int. destruct (Z.ltb_spec x (2 ^ 31)).
  - rewrite Z.mod_small by lia. lia.
  - rewrite mod_lap by lia. lia.
Qed.

(** [segment_to_use] fails its assertion exactly when the two segments
    start at the same slot. *)
Lemma segment_to_use_aborts NDEBUG b s0 s1 w :
  wf b → 0 ≤ index s0 < size b → 0 ≤ index s1 < size b →
  0 ≤ w < size b →
  segment_to_use NDEBUG b s0 s1 w = None ↔
  NDEBUG = false ∧ index s0 = index s1.
Proof.
  intros [_ Hs _ _ _ _ _] H0 H1 Hw. unfold segment_to_use.
  assert (Hd : ∀ i, 0 ≤ i < size b →
            to_guint (to_guint (w - i) + (if w >? i then 0 else size b))
            = if w >? i then w - i else w - i + size b).
  { intros i Hi. rewrite to_guint_plus_l.
    destruct (Z.gtb_spec w i); rewrite to_guint_small; lia. }
  rewrite !Hd by done.
  set (r0 := if w >? index s0 then w - index s0 else w - index s0 + size b).
  set (r1 := if w >? index s1 then w - index s1 else w - index s1 + size b).
  assert (0 < r0 ≤ size b ∧ 0 < r1 ≤ size b ∧
          (r0 = r1 ↔ index s0 = index s1)) as (Hr0 & Hr1 & Hr).
  { subst r0 r1.
    destruct (Z.gtb_spec w (index s0)), (Z.gtb_spec w (index s1)); lia. }
  clearbody r0 r1.
  assert (to_int r0 = to_int r1 ↔ r0 = r1) as Hi.
  { rewrite !to_int_eq by lia.
    destruct (Z.ltb_spec r0 (2 ^ 31)), (Z.ltb_spec r1 (2 ^ 31)); lia. }
  unfold assert.
  destruct NDEBUG, (Z.eqb_spec (to_int r0) (to_int r1)) as [He|He]; simpl.
  - split; [by destruct (_ <? _) | by intros [? _]].
  - split; [by destruct (_ <? _) | by intros [? _]].
  - split; [intros _; split; [done|tauto] | done].
  - split; [by destruct (_ <? _) | intros [_ H]; tauto].
Qed.

Lemma shrink_segment_eq NDEBUG b i start cnt idx :
  wf b → 0 ≤ cnt → covers b (seg_get (_seg b) i) start cnt = true →
  shrink_segment NDEBUG b i start cnt idx =
  Some (set_seg b
          (seg_set (_seg b) i
             (mkSegment idx (start + cnt)
                (last_range_end (seg_get (_seg b) i) - (start + cnt))
                (write_reversed (seg_get (_seg b) i))))).
Proof.
  intros Hwf Hc Hcov.
  destruct (covers_bounds _ _ _ _ Hwf Hc Hcov) as (H1 & H2 & H3 & H4).
  destruct (shrink_segment NDEBUG b i start cnt idx) as [b1|] eqn:E.
  { by apply shrink_segment_inv in E as ->. }
  exfalso. revert E. unfold shrink_segment, assert, last_range_end in *.
  rewrite (proj2 (Z.leb_le 0 _)) by lia.
  rewrite (proj2 (Z.leb_le _ (write_start_offset _))) by lia.
  by rewrite !orb_true_r.
Qed.

(** X13.  When a read aborts.  From a state with sound descriptors, a
    read fails an assertion in one case only: a build with assertions, a
    committing read that took the lock and is served from one segment,
    and two segments in use that start at the same slot, for which
    [segment_to_use] cannot tell the writer's segment.  The cut of the
    segment that was read never fails its assertions. *)
Theorem read_aborts_iff NDEBUG lm b dest start cnt commit :
  wf b → segments_ok b → 0 ≤ cnt →
  read NDEBUG lm b dest start cnt commit = None ↔
  NDEBUG = false ∧ lm = true ∧ commit = true ∧
  write_start_offset (fst (_seg b)) ≠ 0 ∧
  write_start_offset (snd (_seg b)) ≠ 0 ∧
  index (fst (_seg b)) = index (snd (_seg b)) ∧
  ¬ (holds b (fst (_seg b)) start cnt ↔ holds b (snd (_seg b)) start cnt).
Proof.
  intros Hwf Hok Hc.
  rewrite <- !covers_holds by done.
  destruct lm; [|split; [done|intros (_ & ? & _); done]].
  rewrite read_eq. destruct (eqb _ _) eqn:Heq.
  { split; [done|]. intros (_ & _ & _ & _ & _ & _ & H). exfalso. apply H.
    apply eqb_prop in Heq. by rewrite Heq. }
  assert (¬ (covers b (fst (_seg b)) start cnt = true
             ↔ covers b (snd (_seg b)) start cnt = true)) as Hne.
  { apply eqb_false_iff in Heq.
    destruct (covers b (fst (_seg b)) start cnt),
      (covers b (snd (_seg b)) start cnt); try done; intros [H1 H2];
      [by specialize (H1 eq_refl) | by specialize (H2 eq_refl)]. }
  destruct (hit_segment _ _ _ Heq) as (Hi & Hcov & _).
  set (i := if covers b (fst (_seg b)) start cnt then 0 else 1) in *.
  cbv zeta. destruct commit; [|split; [done|intros (_ & _ & ? & _); done]].
  rewrite invalidate_eq by (destruct Hi as [-> | ->]; auto).
  set (idx := (copy_out b dest (read_slot b (seg_get (_seg b) i) start) cnt).2).
  clearbody idx.
  destruct (Z.eqb_spec (write_start_offset (fst (_seg b))) 0) as [H0|H0];
    simpl; [split; [done|tauto]|].
  destruct (Z.eqb_spec (write_start_offset (snd (_seg b))) 0) as [H1|H1];
    simpl; [split; [done|tauto]|].
  pose proof Hwf as [_ _ _ Hw _ _ _].
  pose proof (segment_to_use_aborts NDEBUG b (fst (_seg b)) (snd (_seg b))
                (write_idx b) Hwf
                (proj2 (Hok _ (or_introl eq_refl)) H0)
                (proj2 (Hok _ (or_intror eq_refl)) H1) Hw) as Hstu.
  destruct (segment_to_use _ _ _ _ _) as [u|]; simpl.
  - assert (NDEBUG = false ∧ index (fst (_seg b)) = index (snd (_seg b))
            → False) as Hno.
    { intros H. by apply Hstu in H. }
    split; [|tauto].
    clearbody i. destruct Hi as [-> | ->]; simpl.
    + destruct (u =? 1); simpl; [|done].
      by rewrite (shrink_segment_eq NDEBUG b 0).
    + destruct (u =? 0); simpl; [|done].
      by rewrite (shrink_segment_eq NDEBUG b 1).
  - destruct (proj1 Hstu eq_refl) as [-> Hidx]. tauto.
Qed.

(** ** The cut of a committing read *)

(** The slot that a read starts from and the slot that it ends at. *)
Lemma read_slots b s dest start cnt :
  wf b → 0 ≤ cnt → covers b s start cnt = true →
  read_slot b s start = slot_of b s start ∧
  (copy_out b dest (read_slot b s start) cnt).2 = slot_of b s (start + cnt).
Proof.
  intros Hwf Hc Hcov.
  destruct (covers_bounds _ _ _ _ Hwf Hc Hcov) as (H1 & H2 & H3 & H4).
  pose proof (read_slot_range b s start Hwf ltac:(lia)) as Hr.
  assert (read_slot b s start = slot_of b s start) as Hs.
  { rewrite read_slot_eq by (done || lia). unfold slot_of, last_range_end.
    f_equal. lia. }
  split; [done|]. rewrite copy_out_idx_eq by (done || lia).
  rewrite Hs. unfold slot_of. rewrite Zplus_mod_idemp_l. f_equal. lia.
Qed.


(** ** A write and the queries *)

(** X10.  [next_write_pos] follows the writes.  While segment 1 is
    unused, a write at the position that [next_write_pos] announces never
    aborts, and afterwards [next_write_pos] announces that position plus
    the count that the write returned; segment 1 is still unused. *)
Theorem write_advances_next_write_pos NDEBUG b src start cnt :
  write_start_offset (snd (_seg b)) = 0 →
  next_write_pos NDEBUG b = Some start →
  ∃ b' n,
    write NDEBUG b src start cnt = Some (b', n) ∧
    next_write_pos NDEBUG b' = Some (start + n) ∧
    write_start_offset (snd (_seg b')) = 0.
Proof.
  intros H1 Hnwp. pose proof Hnwp as Hnwp'.
  rewrite next_write_pos_eq, H1 in Hnwp. simpl in Hnwp.
  rewrite andb_true_r in Hnwp.
  rewrite write_eq. cbv zeta. rewrite H1. simpl.
  set (m := if cnt >? write_space b then write_space b else cnt).
  unfold last_range_end in *.
  destruct (Z.eqb_spec (write_start_offset (fst (_seg b))) 0) as [H0|H0];
    simpl in *.
  - injection Hnwp as Hs.
    destruct (write_space b =? 0).
    + exists b, 0. by rewrite Z.add_0_r.
    + eexists _, _. split; [reflexivity|]. split; [|done].
      rewrite next_write_pos_eq. seg_simpl. rewrite H1. simpl.
      rewrite andb_true_r. unfold last_range_end. simpl.
      destruct (Z.eqb_spec (0 + m) 0); simpl; f_equal; lia.
  - injection Hnwp as Hs. rewrite <- Hs, Z.eqb_refl.
    destruct (write_space b =? 0).
    + exists b, 0. by rewrite Z.add_0_r, Hs.
    + eexists _, _. split; [reflexivity|]. split; [|done].
      rewrite next_write_pos_eq. seg_simpl. rewrite H1. simpl.
      rewrite andb_true_r. unfold last_range_end. simpl.
      destruct (Z.eqb_spec (write_start_offset (fst (_seg b)) + m) 0);
        simpl; f_equal; lia.
Qed.

(** X14.  What was written can be read.  From a state with sound
    descriptors, after a write at [start] that returned a positive count
    [n], [can_read] is true for the range of [n] positions from [start]
    on. *)
Theorem write_then_can_read NDEBUG b src start cnt b' n :
  wf b → segments_ok b → is_guint cnt →
  write NDEBUG b src start cnt = Some (b', n) → 0 < n →
  can_read b' start n = true.
Proof.
  intros Hwf Hok [Hc _]. rewrite write_eq. cbv zeta.
  destruct (write_count_range b cnt Hwf Hc) as [Hn Hsz].
  set (m := if cnt >? write_space b then write_space b else cnt) in *.
  clearbody m.
  pose proof (Hok _ (or_introl eq_refl)) as [Hp0 _].
  pose proof (Hok _ (or_intror eq_refl)) as [Hp1 _].
  pose proof Hwf as [_ Hs _ _ _ _ _].
  assert (∀ i x,
    (i = 0 ∨ i = 1) →
    0 ≤ write_start_offset x →
    write_start_pos x + write_start_offset x = start →
    (if write_space b =? 0 then Some (b, 0)
     else Some (set_write_idx
                  (set_seg (set_buf b (copy_in b src m).1)
                     (seg_set (_seg b) i
                        (set_write_start_offset x (write_start_offset x + m))))
                  (copy_in b src m).2, m)) = Some (b', n) →
    0 < n → can_read b' start n = true) as Hfin.
  { intros i x Hi Hx0 Hx. destruct (write_space b =? 0).
    - intros [= <- <-]. lia.
    - intros [= <- <-] Hpos.
      assert (covers b (set_write_start_offset x (write_start_offset x + m))
                start m = true) as Hcov.
      { unfold covers. simpl. rewrite wf_size_guint by done.
        destruct (Z.ltb_spec 0 (write_start_offset x + m)); [|lia].
        apply andb_true_intro. split; apply Z.leb_le; lia. }
      unfold can_read. rewrite to_int_small by lia. simpl.
      destruct Hi as [-> | ->]; seg_simpl.
      + change (covers (set_write_idx _ _)) with (covers b).
        by rewrite Hcov.
      + change (covers (set_write_idx _ _)) with (covers b).
        rewrite Hcov. by destruct (covers b (fst (_seg b)) start m). }
  unfold last_range_end.
  destruct (Z.eqb_spec (write_start_offset (fst (_seg b))) 0) as [H0|H0].
  - destruct (Z.eqb_spec (write_start_offset (snd (_seg b))) 0) as [H1|H1];
      simpl.
    + apply Hfin; simpl; auto; lia.
    + destruct (Z.eqb_spec start (write_start_pos (snd (_seg b))
                                  + write_start_offset (snd (_seg b)))); simpl.
      * apply Hfin; auto.
      * apply Hfin; simpl; auto; lia.
  - destruct (Z.eqb_spec start (write_start_pos (fst (_seg b))
                                + write_start_offset (fst (_seg b)))).
    + apply Hfin; auto.
    + destruct (assert _ _); simpl; [|done]. apply Hfin; simpl; auto; lia.
Qed.

(** ** Linear playback *)

Lemma playing_reset b P (f : Z → T) : wf b → playing (reset b P) f.
Proof.
  intros Hwf. split; [by apply wf_reset|]. simpl.
  split; [done|]. split; [done|]. split; [done|].
  intros p. unfold first_range_start, last_range_end. simpl.
  destruct Hwf. lia.
Qed.

(** The state after the copy of a write that goes to segment 0, which
    ends at [start] and at the write index. *)
Lemma playing_append b (f : Z → T) src start m x :
  wf b → write_start_offset (snd (_seg b)) = 0 →
  0 ≤ write_start_offset x →
  write_start_pos x + write_start_offset x = start →
  (index x + write_start_offset x) mod size b = write_idx b →
  (∀ p, start - Z.min (write_start_offset x) (size b - 1) ≤ p < start →
        buf b !! Z.to_nat ((index x + (p - write_start_pos x)) mod size b)
        = Some (f p)) →
  0 ≤ m < size b →
  (∀ j, 0 ≤ j < m → src !! Z.to_nat j = Some (f (start + j))) →
  playing
    (set_write_idx
       (set_seg (set_buf b (copy_in b src m).1)
          (seg_set (_seg b) 0
             (set_write_start_offset x (write_start_offset x + m))))
       (copy_in b src m).2) f.
Proof.
  intros Hwf H1 Hx0 Hx Hend Hold Hm Hsrc.
  pose proof Hwf as [_ Hs _ Hw _ _ _].
  assert (m ≤ Z.of_nat (length src)) as Hlen.
  { destruct (Z.eq_dec m 0); [lia|].
    specialize (Hsrc (m - 1) ltac:(lia)).
    apply lookup_lt_Some in Hsrc. lia. }
  split.
  { apply wf_set_write_idx;
      [apply wf_set_seg, wf_set_buf; [done|apply copy_in_length]|].
    simpl. by apply copy_in_idx. }
  simpl. split; [done|]. split; [lia|]. split.
  { intros _. unfold slot_of, last_range_end. simpl.
    rewrite copy_in_idx_eq by done. rewrite <- Hend.
    rewrite Zplus_mod_idemp_l. f_equal. lia. }
  intros p. unfold first_range_start, last_range_end, slot_of. simpl.
  intros Hp.
  destruct (Z.le_gt_cases start p) as [Hnew|Hkept].
  - replace (index x + (p - write_start_pos x))
      with (index x + write_start_offset x + (p - start)) by lia.
    rewrite <- Zplus_mod_idemp_l, Hend.
    rewrite copy_in_written by (done || lia).
    rewrite Hsrc by lia. f_equal. f_equal. lia.
  - rewrite <- Hold by lia.
    set (back := start - p).
    assert (1 ≤ back ≤ size b - 1 - m) as Hback by (subst back; lia).
    assert ((index x + (p - write_start_pos x)) mod size b
            = (write_idx b - back) mod size b) as Hslot.
    { rewrite <- Hend. rewrite Zminus_mod_idemp_l. f_equal. lia. }
    rewrite Hslot.
    assert ((write_idx b - back) mod size b
            = if back <=? write_idx b then write_idx b - back
              else write_idx b - back + size b) as Hcase.
    { destruct (Z.leb_spec back (write_idx b)).
      - apply Z.mod_small. lia.
      - apply mod_lap_back. lia. }
    apply copy_in_untouched; try done.
    + apply Z.mod_pos_bound. lia.
    + rewrite Hcase.
      destruct (Z.leb_spec back (write_idx b));
        rewrite ring_distance_eq by lia.
      * destruct (Z.leb_spec (write_idx b) (write_idx b - back)); lia.
      * destruct (Z.leb_spec (write_idx b) (write_idx b - back + size b));
          lia.
Qed.

Lemma playing_write NDEBUG b (f : Z → T) src start cnt :
  playing b f → is_guint cnt →
  next_write_pos NDEBUG b = Some start →
  (∀ j, 0 ≤ j < cnt → src !! Z.to_nat j = Some (f (start + j))) →
  ∃ b' n, write NDEBUG b src start cnt = Some (b', n) ∧ playing b' f.
Proof.
  intros Hplay [Hc _] Hnwp Hsrc.
  pose proof Hplay as (Hwf & H1 & Hoff & Hend & Hst).
  pose proof Hwf as [_ Hs _ Hw _ _ _].
  rewrite next_write_pos_eq, H1 in Hnwp. simpl in Hnwp.
  rewrite andb_true_r in Hnwp.
  rewrite write_eq. cbv zeta. rewrite H1. simpl.
  destruct (write_count_range b cnt Hwf Hc) as [Hn Hsz].
  set (m := if cnt >? write_space b then write_space b else cnt) in *.
  clearbody m.
  destruct (Z.eqb_spec (write_start_offset (fst (_seg b))) 0) as [H0|H0];
    simpl in *.
  - injection Hnwp as Hpos.
    destruct (write_space b =? 0); [by exists b, 0|].
    eexists _, _. split; [reflexivity|].
    apply (playing_append b f src start m
             (mkSegment (write_idx b) start 0
                (write_reversed (fst (_seg b))))); simpl; try done; try lia.
    + rewrite Z.add_0_r. apply Z.mod_small. lia.
    + intros j Hj. apply Hsrc. lia.
  - injection Hnwp as Hpos. unfold last_range_end in *.
    rewrite <- Hpos, Z.eqb_refl.
    destruct (write_space b =? 0); [by exists b, 0|].
    eexists _, _. split; [reflexivity|].
    apply (playing_append b f src start m (fst (_seg b))); try done;
      try lia.
    + specialize (Hend H0). unfold slot_of in Hend. rewrite <- Hend.
      f_equal. lia.
    + intros p Hp. apply Hst.
      unfold first_range_start, last_range_end. lia.
    + intros j Hj. apply Hsrc. lia.
Qed.

Lemma playing_set_read_idx b (f : Z → T) r :
  playing b f → 0 ≤ r < size b → playing (set_read_idx b r) f.
Proof.
  intros (Hwf & H1 & Hoff & Hend & Hst) Hr.
  split; [by apply wf_set_read_idx|]. done.
Qed.

Lemma playing_read NDEBUG lm b (f : Z → T) dest start cnt commit :
  playing b f → 0 ≤ cnt →
  ∃ b' n d,
    read NDEBUG lm b dest start cnt commit = Some (b', n, d) ∧ playing b' f.
Proof.
  intros Hplay Hc. pose proof Hplay as (Hwf & H1 & _).
  destruct lm; [|by eexists _, _, _].
  assert (invalidate_none : ∀ seg idx, seg = 1 ∨ seg = 2 →
            invalidate NDEBUG b seg start cnt idx = Some b).
  { intros seg idx Hseg. rewrite invalidate_eq by done.
    rewrite H1. simpl. by rewrite andb_false_r. }
  destruct (read NDEBUG true b dest start cnt commit)
    as [[[b' n] d]|] eqn:Hread.
  - exists b', n, d. split; [done|].
    pose proof (wf_read _ _ _ _ _ _ _ _ _ _ Hwf Hread) as Hwf'.
    rewrite read_eq in Hread. destruct (eqb _ _) eqn:Heq.
    + injection Hread as <- _ _. destruct commit; [|done].
      apply playing_set_read_idx; [done|]. by destruct Hwf.
    + destruct (hit_segment _ _ _ Heq) as (Hi & _).
      cbv zeta in Hread. destruct commit.
      * rewrite invalidate_none in Hread
          by (destruct Hi as [-> | ->]; auto).
        injection Hread as <- _ _.
        apply playing_set_read_idx; [done|]. by destruct Hwf'.
      * by injection Hread as <- _ _.
  - exfalso. rewrite read_eq in Hread. destruct (eqb _ _) eqn:Heq; [done|].
    destruct (hit_segment _ _ _ Heq) as (Hi & _).
    cbv zeta in Hread. destruct commit; [|done].
    by rewrite invalidate_none in Hread by (destruct Hi as [-> | ->]; auto).
Qed.

Lemma playing_run NDEBUG (f : Z → T) cs : ∀ b,
  playing b f → Forall well_typed cs → linear NDEBUG f b cs →
  ∃ b', run NDEBUG b cs = Some b' ∧ playing b' f.
Proof.
  induction cs as [|c cs IH]; simpl; intros b Hplay Hty Hlin.
  - by exists b.
  - inversion Hty as [|? ? Hc Hcs]; subst. destruct Hlin as [Hcall Hlin].
    assert (∃ b1, step NDEBUG b c = Some b1 ∧ playing b1 f) as (b1 & Hs & Hp).
    { destruct c as [P|src start cnt|lm dest start cnt commit|cnt|];
        simpl in *.
      - done.
      - destruct Hcall as [Hnwp Hsrc].
        destruct (playing_write NDEBUG b f src start cnt Hplay
                    (proj1 Hc) Hnwp Hsrc) as (b1 & n & -> & Hp).
        by exists b1.
      - destruct (playing_read NDEBUG lm b f dest start cnt commit Hplay)
          as (b1 & n & d & -> & Hp); [destruct Hc as [[] _]; done|].
        by exists b1.
      - eexists. split; [done|]. apply playing_set_read_idx; [done|].
        apply wf_land_range. by destruct Hplay.
      - eexists. split; [done|]. apply playing_set_read_idx; [done|].
        destruct Hplay as [[] _]. done. }
    rewrite Hs in Hlin |- *. simpl. by apply IH.
Qed.

(** What a read delivers in a linear playback. *)
Lemma playing_read_data NDEBUG b (f : Z → T) dest start cnt :
  playing b f → 0 ≤ cnt ≤ Z.of_nat (length dest) →
  holds b (fst (_seg b)) start cnt →
  ∃ d, read NDEBUG true b dest start cnt false = Some (b, cnt, d) ∧
       ∀ j, 0 ≤ j < cnt → d !! Z.to_nat j = Some (f (start + j)).
Proof.
  intros (Hwf & H1 & Hoff & Hend & Hst) Hc Hin.
  pose proof Hin as (Ha & Hf & Hl).
  apply covers_holds in Hin; [|done].
  assert (covers b (snd (_seg b)) start cnt = false) as Hout.
  { unfold covers. by rewrite H1. }
  rewrite read_eq, Hin, Hout. simpl. seg_simpl.
  eexists. split; [reflexivity|]. intros j Hj.
  destruct (covers_bounds _ _ _ _ Hwf (proj1 Hc) Hin) as (B1 & B2 & B3 & B4).
  destruct (read_slots b (fst (_seg b)) dest start cnt Hwf (proj1 Hc) Hin)
    as [Hslot _].
  pose proof (read_slot_range b (fst (_seg b)) start Hwf ltac:(lia)).
  rewrite copy_out_lookup by (done || lia).
  destruct (Z.ltb_spec j cnt); [|lia].
  rewrite Hslot. unfold slot_of at 1. rewrite Zplus_mod_idemp_l.
  replace (index (fst (_seg b)) + (start - write_start_pos (fst (_seg b))) + j)
    with (index (fst (_seg b)) + (start + j - write_start_pos (fst (_seg b))))
    by lia.
  apply Hst. lia.
Qed.

(** X6.  Linear playback.  Take a well-formed buffer, reset it, and let
    the writer append the stream [f] at the positions that
    [next_write_pos] announces while the reader reads, commits, skips and
    flushes as it likes.  No call aborts; segment 1 stays unused; and in
    the state reached every range of the valid range of segment 0 is read
    back as the elements that [f] has there, also ranges read before. *)
Theorem linear_playback NDEBUG (f : Z → T) b P cs :
  wf b → Forall well_typed cs → linear NDEBUG f (reset b P) cs →
  ∃ b',
    run NDEBUG (reset b P) cs = Some b' ∧
    write_start_offset (snd (_seg b')) = 0 ∧
    ∀ dest start cnt,
      0 ≤ cnt ≤ Z.of_nat (length dest) →
      holds b' (fst (_seg b')) start cnt →
      ∃ d, read NDEBUG true b' dest start cnt false = Some (b', cnt, d) ∧
           ∀ j, 0 ≤ j < cnt → d !! Z.to_nat j = Some (f (start + j)).
Proof.
  intros Hwf Hty Hlin.
  destruct (playing_run NDEBUG f cs (reset b P)) as (b' & Hrun & Hplay);
    [by apply playing_reset | done | done |].
  exists b'. split; [done|]. split; [by destruct Hplay as (_ & ? & _)|].
  intros dest start cnt Hc Hin. by apply playing_read_data.
Qed.

(** ** More on writes *)

(** X15.  The loop wrap.  With segment 0 in use and segment 1 unused, a
    write at a start that does not continue segment 0 opens segment 1 at
    the write index and leaves segment 0 as it is; when it returned a
    positive count [n], and segment 0 does not hold the range as well, a
    read of the [n] positions from [start] on returns the [n] elements
    written. *)
Theorem loop_wrap_roundtrip NDEBUG b src dest start cnt b' n :
  wf b → is_guint cnt → cnt ≤ Z.of_nat (length src) →
  write_start_offset (fst (_seg b)) ≠ 0 →
  write_start_offset (snd (_seg b)) = 0 →
  start ≠ last_range_end (fst (_seg b)) →
  write NDEBUG b src start cnt = Some (b', n) → 0 < n →
  n ≤ Z.of_nat (length dest) →
  fst (_seg b') = fst (_seg b) ∧
  snd (_seg b')
  = mkSegment (write_idx b) start n (write_reversed (snd (_seg b))) ∧
  (¬ holds b' (fst (_seg b')) start n →
   ∃ d, read NDEBUG true b' dest start n false = Some (b', n, d) ∧
        ∀ j, 0 ≤ j < n → d !! Z.to_nat j = src !! Z.to_nat j).
Proof.
  intros Hwf [Hc _] Hsrc H0 H1 Hjump Hw Hn Hdest.
  pose proof (wf_write _ _ _ _ _ _ _ Hwf Hw) as Hwf'.
  pose proof Hwf as [_ Hs _ Hwi _ _ _].
  destruct (write_count_range b cnt Hwf Hc) as [Hm Hsz].
  revert Hw. rewrite write_eq. cbv zeta.
  set (m := if cnt >? write_space b then write_space b else cnt) in *.
  clearbody m.
  rewrite (proj2 (Z.eqb_neq _ _) H0), (proj2 (Z.eqb_neq _ _) Hjump), H1.
  simpl. rewrite assert_true. simpl.
  destruct (write_space b =? 0); [intros [= <- <-]; lia|].
  intros [= <- <-]. simpl. split; [done|]. split; [f_equal; lia|].
  intros Hout.
  set (b' := set_write_idx _ _) in *.
  assert (covers b' (fst (_seg b')) start m = false) as Hc0.
  { apply not_true_is_false. intros H. apply Hout.
    by apply covers_holds. }
  assert (covers b' (snd (_seg b')) start m = true) as Hc1.
  { unfold covers. simpl. rewrite wf_size_guint by done.
    destruct (Z.ltb_spec 0 (0 + m)); [|lia].
    apply andb_true_intro. split; apply Z.leb_le; lia. }
  assert (read_slot b' (snd (_seg b')) start = write_idx b) as Hslot.
  { rewrite read_slot_eq by (done || (unfold last_range_end; simpl; lia)).
    unfold last_range_end. simpl.
    replace (write_idx b + (0 + m) - (start + (0 + m) - start))
      with (write_idx b) by lia.
    apply Z.mod_small. lia. }
  rewrite read_eq, Hc0, Hc1. cbv zeta.
  rewrite seg_get_1, Hslot. simpl.
  eexists. split; [reflexivity|]. intros j Hj.
  rewrite copy_out_lookup by (done || simpl; lia).
  destruct (Z.ltb_spec j m); [|lia].
  simpl. apply copy_in_written; try done; lia.
Qed.

(** X16.  The first write decides.  After [reset], a write at any start,
    not only at the position given to [reset], goes to segment 0: it
    never aborts, returns the smaller of [cnt] and the
    [size - 1 - reservation] slots of the empty ring, and when there is
    such a slot [next_write_pos] afterwards is [start] plus the returned
    count. *)
Theorem first_write_decides NDEBUG b P src start cnt :
  wf b → is_guint cnt →
  ∃ b' n,
    write NDEBUG (reset b P) src start cnt = Some (b', n) ∧
    n = Z.min cnt (Z.max 0 (size b - 1 - reservation b)) ∧
    write_start_offset (snd (_seg b')) = 0 ∧
    (reservation b < size b - 1 →
     next_write_pos NDEBUG b' = Some (start + n)).
Proof.
  intros Hwf [Hc _]. pose proof (wf_reset b P Hwf) as Hwf'.
  assert (write_space (reset b P) = Z.max 0 (size b - 1 - reservation b))
    as Hws.
  { rewrite write_space_eq by done. unfold free_distance. simpl.
    rewrite Z.eqb_refl. f_equal. lia. }
  rewrite write_eq. cbv zeta. rewrite Hws. simpl.
  set (m := if cnt >? _ then _ else cnt).
  assert (m = Z.min cnt (Z.max 0 (size b - 1 - reservation b))) as Hm.
  { subst m. destruct (Z.gtb_spec cnt (Z.max 0 (size b - 1 - reservation b)));
      lia. }
  destruct (Z.eqb_spec (Z.max 0 (size b - 1 - reservation b)) 0) as [E|E].
  - exists (reset b P), 0. split; [done|]. split; [lia|]. split; [done|]. lia.
  - eexists _, _. split; [reflexivity|]. split; [done|]. split; [done|].
    intros _. rewrite next_write_pos_eq. simpl. rewrite andb_true_r.
    unfold last_range_end. simpl.
    destruct (Z.eqb_spec (0 + m) 0); simpl; f_equal; lia.
Qed.

(** X17.  A write moves space from the writer to the reader.  A write
    call that returned [n] leaves [n] more elements to read and [n] fewer
    slots to write. *)
Theorem write_moves_space NDEBUG b src start cnt b' n :
  wf b → is_guint cnt →
  write NDEBUG b src start cnt = Some (b', n) →
  read_space b' = read_space b + n ∧
  write_space b' = write_space b - n.
Proof.
  intros Hwf Hc Hw.
  pose proof (wf_write _ _ _ _ _ _ _ Hwf Hw) as Hwf'.
  pose proof (write_count _ _ _ _ _ _ _ Hwf Hc Hw) as Hn.
  destruct (write_fields _ _ _ _ _ _ _ Hw) as (Hs & _ & Hres & Hri & Hb & Hwi).
  pose proof (write_space_range b Hwf) as Hr.
  pose proof Hwf as [_ _ _ _ _ [Hres0 _] _].
  destruct (Z.eq_dec (write_space b) 0) as [E|E].
  { rewrite (Hb E). destruct Hc. lia. }
  destruct (space_split b Hwf) as (Hrs & Hrr & _ & Hws).
  destruct (space_split b' Hwf') as (Hrs' & _ & _ & Hws').
  assert (read_space b' = read_space b + n) as Hrd.
  { rewrite Hrs', Hrs. unfold ring_distance.
    rewrite Hs, Hri, (Hwi E).
    rewrite copy_in_idx_eq by (done || destruct Hc; lia).
    rewrite Zminus_mod_idemp_l.
    replace (write_idx b + n - read_idx b)
      with (n + (write_idx b - read_idx b)) by lia.
    rewrite <- Zplus_mod_idemp_r.
    fold (ring_distance b (read_idx b) (write_idx b)). rewrite <- Hrs.
    destruct Hc. rewrite Z.mod_small; lia. }
  split; [done|]. rewrite Hws', Hrd, Hs, Hres. destruct Hc. lia.
Qed.

End Extras.

(** ** Witnesses of the further properties *)

Lemma iota_lookup a n j :
  0 ≤ j < n → iota a n !! Z.to_nat j = Some (a + j).
Proof.
  intros Hj. unfold iota. rewrite list_lookup_fmap.
  rewrite lookup_seq_lt by lia. simpl. f_equal. lia.
Qed.

Lemma reachable_tied : reachable false tied.
Proof.
  apply (reachable_by [CallWrite (iota 0 13) 0 13; CallRead true [0] 12 1 true;
                       CallWrite (iota 13 3) 13 3;
                       CallWrite (iota 2000 2) 2000 2]);
    [typed_calls | reflexivity].
Qed.

Lemma wf_wrapped : wf wrapped.
Proof.
  apply (wf_new 4294959106 8191 (λ _, -1) junk); [|reflexivity].
  unfold is_guint. lia.
Qed.

Ltac sound_descriptors :=
  intros ? [-> | ->]; vm_compute;
  (split;
   [discriminate
   |intros H;
    first [split; [discriminate | reflexivity]
          | exfalso; apply H; reflexivity]]).

Lemma constructor_rounds_up_witness :
  ∃ b, new_RaRingBuffer 10 2 (λ _ : nat, -1) junk = Some b ∧
       wf b ∧ reservation b = 2 ∧
       10 + 2 ≤ size b ∧ (2 < size b → size b < 2 * (10 + 2)) ∧
       write_idx b = 0 ∧ read_idx b = 0 ∧
       write_start_offset (fst (_seg b)) = 0 ∧
       write_start_offset (snd (_seg b)) = 0 ∧
       write_space b = Z.max 0 (size b - 2 - 1) ∧
       10 - 1 ≤ write_space b.
Proof.
  apply (constructor_rounds_up 10 2 (λ _ : nat, -1) junk);
    unfold is_guint; lia.
Defined.

Lemma write_refused_by_reservation_witness :
  write_space wrapped = 0 ∧ 0 = 0 ∧ wrapped = wrapped.
Proof.
  apply (write_refused_by_reservation false wrapped (iota 0 1) 0 1 wrapped 0).
  - exact wf_wrapped.
  - vm_compute. discriminate.
  - reflexivity.
Defined.

Lemma read_space_write_space_witness :
  read_space four = ring_distance four (read_idx four) (write_idx four) ∧
  0 ≤ read_space four < size four ∧
  read_space four + free_distance four = size four ∧
  write_space four
  = Z.max 0 (size four - 1 - reservation four - read_space four).
Proof.
  apply (read_space_write_space four).
  exact (reachable_wf false four reachable_four).
Defined.

Lemma increment_read_idx_clamps_witness :
  read_idx (increment_read_idx four 6)
  = (read_idx four + Z.min 6 (read_space four)) mod size four ∧
  read_space (increment_read_idx four 6)
  = read_space four - Z.min 6 (read_space four) ∧
  (read_space four ≤ 6 → increment_read_idx four 6 = read_flush four).
Proof.
  apply (increment_read_idx_clamps four 6).
  - exact (reachable_wf false four reachable_four).
  - unfold is_guint. lia.
Defined.

Lemma read_flush_empties_witness :
  read_space (read_flush four) = 0 ∧
  write_space (read_flush four)
  = Z.max 0 (size four - 1 - reservation four).
Proof.
  apply (read_flush_empties four).
  exact (reachable_wf false four reachable_four).
Defined.

Lemma linear_cons NDEBUG (f : Z → Z) b c cs b' :
  step NDEBUG b c = Some b' →
  match c with
  | CallReset _ => False
  | CallWrite src start cnt =>
      next_write_pos NDEBUG b = Some start ∧
      ∀ j, 0 ≤ j < cnt → src !! Z.to_nat j = Some (f (start + j))
  | _ => True
  end →
  linear NDEBUG f b' cs → linear NDEBUG f b (c :: cs).
Proof. intros Hs Hc Hl. simpl. by rewrite Hs. Qed.

Lemma linear_playback_witness :
  ∃ b',
    run false (reset fresh 100) playback = Some b' ∧
    write_start_offset (snd (_seg b')) = 0 ∧
    ∀ dest start cnt,
      0 ≤ cnt ≤ Z.of_nat (length dest) →
      holds b' (fst (_seg b')) start cnt →
      ∃ d, read false true b' dest start cnt false = Some (b', cnt, d) ∧
           ∀ j, 0 ≤ j < cnt → d !! Z.to_nat j = Some (start + j).
Proof.
  apply (linear_playback false (λ p, p) fresh 100 playback).
  - exact (reachable_wf false fresh reachable_fresh).
  - typed_calls.
  - unfold playback.
    repeat (eapply linear_cons;
            [vm_compute; reflexivity
            |first [exact I
                   | split; [vm_compute; reflexivity | apply iota_lookup]]
            |]).
    exact I.
Defined.

Lemma read_keeps_cache_witness :
  _seg (set_read_idx four 3) = _seg four ∧
  buf (set_read_idx four 3) = buf four ∧
  ∀ dest2 start2 cnt2,
    can_read (set_read_idx four 3) start2 cnt2 = can_read four start2 cnt2 ∧
    (λ r, (r.1.2, r.2))
      <$> read false true (set_read_idx four 3) dest2 start2 cnt2 false
    = (λ r, (r.1.2, r.2)) <$> read false true four dest2 start2 cnt2 false.
Proof.
  apply (read_keeps_cache false true four [0; 0] 1 2 true
           (set_read_idx four 3) 2 [1; 2]).
  - right. reflexivity.
  - reflexivity.
Defined.


Lemma can_read_and_read_witness :
  (can_read looped 2001 2 = true ↔
   holds looped (fst (_seg looped)) 2001 2
   ∨ holds looped (snd (_seg looped)) 2001 2) ∧
  (can_read looped 2001 2 = true →
   ¬ (holds looped (fst (_seg looped)) 2001 2
      ∧ holds looped (snd (_seg looped)) 2001 2) →
   2 = 2) ∧
  (can_read looped 2001 2 = false → 2 = 0 ∧ [2001; 2002] = [0; 0]).
Proof.
  apply (can_read_and_read false looped [0; 0] 2001 2 false looped 2
           [2001; 2002]).
  - exact (reachable_wf false looped reachable_looped).
  - lia.
  - reflexivity.
Defined.

Lemma write_advances_next_write_pos_witness :
  ∃ b' n,
    write false four (iota 4 20) 4 20 = Some (b', n) ∧
    next_write_pos false b' = Some (4 + n) ∧
    write_start_offset (snd (_seg b')) = 0.
Proof.
  apply (write_advances_next_write_pos false four (iota 4 20) 4 20);
    reflexivity.
Defined.

Lemma read_frame_witness :
  ∃ b' n d,
    read false true looped [7; 7; 7] 0 2 true = Some (b', n, d) ∧
    buf b' = buf looped ∧ write_idx b' = write_idx looped ∧
    size b' = size looped ∧ reservation b' = reservation looped ∧
    (true = false → b' = looped) ∧
    (n = 0 ∨ n = 2) ∧
    length d = length [7; 7; 7] ∧
    ∀ j, n ≤ j → d !! Z.to_nat j = [7; 7; 7] !! Z.to_nat j.
Proof.
  eexists _, _, _. split; [vm_compute; reflexivity|].
  apply (read_frame false true looped [7; 7; 7] 0 2 true).
  - exact (reachable_wf false looped reachable_looped).
  - simpl. lia.
  - vm_compute. reflexivity.
Defined.

Lemma reachable_segments_ok_witness :
  segments_ok tied ∧
  ∀ s, s = fst (_seg tied) ∨ s = snd (_seg tied) →
       (write_start_offset s ≠ 0 ↔ active s).
Proof.
  apply (reachable_segments_ok false tied). exact reachable_tied.
Defined.

Lemma read_aborts_iff_witness :
  read false true tied [0] 2000 1 true = None ↔
  false = false ∧ true = true ∧ true = true ∧
  write_start_offset (fst (_seg tied)) ≠ 0 ∧
  write_start_offset (snd (_seg tied)) ≠ 0 ∧
  index (fst (_seg tied)) = index (snd (_seg tied)) ∧
  ¬ (holds tied (fst (_seg tied)) 2000 1
     ↔ holds tied (snd (_seg tied)) 2000 1).
Proof.
  apply (read_aborts_iff false true tied [0] 2000 1 true).
  - exact (reachable_wf false tied reachable_tied).
  - sound_descriptors.
  - lia.
Defined.

Lemma write_then_can_read_witness : can_read four 0 4 = true.
Proof.
  apply (write_then_can_read false fresh (iota 0 4) 0 4 four 4).
  - exact (reachable_wf false fresh reachable_fresh).
  - sound_descriptors.
  - unfold is_guint. lia.
  - reflexivity.
  - lia.
Defined.

Lemma loop_wrap_roundtrip_witness :
  fst (_seg looped) = fst (_seg four) ∧
  snd (_seg looped)
  = mkSegment (write_idx four) 2000 4 (write_reversed (snd (_seg four))) ∧
  (¬ holds looped (fst (_seg looped)) 2000 4 →
   ∃ d, read false true looped [0; 0; 0; 0] 2000 4 false
        = Some (looped, 4, d) ∧
        ∀ j, 0 ≤ j < 4 → d !! Z.to_nat j = iota 2000 4 !! Z.to_nat j).
Proof.
  apply (loop_wrap_roundtrip false four (iota 2000 4) [0; 0; 0; 0] 2000 4
           looped 4).
  - exact (reachable_wf false four reachable_four).
  - unfold is_guint. lia.
  - simpl. lia.
  - vm_compute. discriminate.
  - reflexivity.
  - vm_compute. discriminate.
  - reflexivity.
  - lia.
  - simpl. lia.
Defined.

Lemma first_write_decides_witness :
  ∃ b' n,
    write false (reset four 7) (iota 50 3) 50 3 = Some (b', n) ∧
    n = Z.min 3 (Z.max 0 (size four - 1 - reservation four)) ∧
    write_start_offset (snd (_seg b')) = 0 ∧
    (reservation four < size four - 1 →
     next_write_pos false b' = Some (50 + n)).
Proof.
  apply (first_write_decides false four 7 (iota 50 3) 50 3).
  - exact (reachable_wf false four reachable_four).
  - unfold is_guint. lia.
Defined.

Lemma write_moves_space_witness :
  read_space four = read_space fresh + 4 ∧
  write_space four = write_space fresh - 4.
Proof.
  apply (write_moves_space false fresh (iota 0 4) 0 4 four 4).
  - exact (reachable_wf false fresh reachable_fresh).
  - unfold is_guint. lia.
  - reflexivity.
Defined.
